(** * ChatDatabase (db.js): a shallow embedding of the IndexedDB wrapper

    The class [ChatDatabase] of [db.js] wraps one IndexedDB database with six
    object stores.  This development models

    - JavaScript values, strings (sequences of UTF-16 code units), objects
      (finite maps from property names to values) and the caller's heap of
      mutable message objects;
    - IndexedDB keys with their order, object stores as finite maps from
      primary key to record, secondary indexes as key extractors, cursors as
      the list of records they visit, and a transaction as a run of requests
      that commits as a whole or is rolled back as a whole;
    - every method of the class that the verified properties talk about, in
      the order of the source.

    [Date.now()] and [Math.random().toString(36).substr(2, 9)] are inputs of
    the model: the n-th reading of the clock and the n-th random suffix drawn
    during a call. *)

From Stdlib Require Import ZArith NArith List String Ascii Permutation.
From Stdlib Require Import DecimalString DecimalZ DecimalPos.
From stdpp Require Import gmap strings list fin_maps functions sorting.

Open Scope Z_scope.

(** ** JavaScript values *)

(** A JavaScript string is a sequence of 16-bit code units. *)
Abbreviation jsstring := (list N).

(** The code units of an ASCII literal of the source. *)
Definition js (s : string) : jsstring := N_of_ascii <$> list_ascii_of_string s.

(** [String(n)] for an integral number: the decimal digits, with a leading
    minus sign for a negative one (the form JavaScript prints for every
    integer of magnitude below 1e21, so for every [Date.now()] and array
    index). *)
Definition dec (n : Z) : jsstring := js (NilZero.string_of_int (Z.to_int n)).

Inductive value :=
  | VUndef
  | VNull
  | VBool (b : bool)
  | VNum (n : Z)
  | VStr (s : jsstring).

#[global] Instance value_eq_dec : EqDecision value.
Proof. solve_decision. Defined.

#[global] Instance value_inhabited : Inhabited value := populate VUndef.

(** An object: its own properties.  Property names are the identifiers of the
    source. *)
Abbreviation obj := (gmap string value).

(** [o.f]: reading an absent property gives [undefined]. *)
Definition get (o : obj) (f : string) : value := default VUndef (o !! f).

(** [ToBoolean]. *)
Definition truthy (v : value) : bool :=
  match v with
  | VUndef | VNull => false
  | VBool b => b
  | VNum n => negb (n =? 0)
  | VStr s => match s with [] => false | _ :: _ => true end
  end.

(** [a || b]. *)
Definition js_or (a b : value) : value := if truthy a then a else b.

(** [v !== false]. *)
Definition not_false (v : value) : bool :=
  match v with VBool false => false | _ => true end.

(** [{ ...a, ...b }]: the properties of [b] win. *)
Definition spread (a b : obj) : obj := b ∪ a.

(** ** IndexedDB keys *)

(** The valid keys that the values of this model can denote: numbers and
    strings. *)
Inductive Key :=
  | KNum (n : Z)
  | KStr (s : jsstring).

#[global] Instance key_eq_dec : EqDecision Key.
Proof. solve_decision. Defined.

#[global] Instance key_countable : Countable Key.
Proof.
  refine (inj_countable'
            (fun k => match k with KNum n => inl n | KStr s => inr s end)
            (fun x => match x with inl n => KNum n | inr s => KStr s end) _).
  intros []; reflexivity.
Defined.

(** Converting a value to a key; [None] when the value is not a valid key. *)
Definition to_key (v : value) : option Key :=
  match v with
  | VNum n => Some (KNum n)
  | VStr s => Some (KStr s)
  | _ => None
  end.

(** Strings compare by code unit, a proper prefix before its extensions. *)
Fixpoint str_compare (a b : jsstring) : comparison :=
  match a, b with
  | [], [] => Eq
  | [], _ :: _ => Lt
  | _ :: _, [] => Gt
  | x :: a', y :: b' =>
      match (x ?= y)%N with
      | Eq => str_compare a' b'
      | c => c
      end
  end.

(** The key order of IndexedDB: every number is below every string. *)
Definition key_compare (a b : Key) : comparison :=
  match a, b with
  | KNum x, KNum y => (x ?= y)%Z
  | KNum _, KStr _ => Lt
  | KStr _, KNum _ => Gt
  | KStr x, KStr y => str_compare x y
  end.

(** Array keys (the keys of a compound index) compare component by
    component. *)
Fixpoint arr_compare (a b : list Key) : comparison :=
  match a, b with
  | [], [] => Eq
  | [], _ :: _ => Lt
  | _ :: _, [] => Gt
  | x :: a', y :: b' =>
      match key_compare x y with
      | Eq => arr_compare a' b'
      | c => c
      end
  end.

Definition cmp_le (c : comparison) : bool :=
  match c with Gt => false | _ => true end.

(** [IDBKeyRange.bound(lower, upper)], both ends included. *)
Definition in_bound (lower upper k : list Key) : bool :=
  cmp_le (arr_compare lower k) && cmp_le (arr_compare k upper).

(** ** Object stores, indexes and cursors *)

Section Store.
Context {A : Type}.

(** Insertion of a record into a list kept in primary-key order. *)
Fixpoint key_insert (x : Key * A) (l : list (Key * A)) : list (Key * A) :=
  match l with
  | [] => [x]
  | y :: l' =>
      if cmp_le (key_compare x.1 y.1) then x :: y :: l'
      else y :: key_insert x l'
  end.

(** The records of a store in primary-key order, the order in which
    [getAll] and a forward cursor deliver them. *)
Definition records (m : gmap Key A) : list (Key * A) :=
  foldr key_insert [] (map_to_list m).

(** The records that a single-property index files under [k]. *)
Definition index_only (ix : A -> option Key) (k : Key) (m : gmap Key A)
  : list (Key * A) :=
  List.filter (fun r => bool_decide (ix r.2 = Some k)) (records m).

(** The records that a compound index files within a bound. *)
Definition index_bound (ix : A -> option (list Key)) (lower upper : list Key)
    (m : gmap Key A) : list (Key * A) :=
  List.filter
    (fun r => match ix r.2 with
              | Some k => in_bound lower upper k
              | None => false
              end)
    (records m).

(** The cursor loop [cursor.delete(); cursor.continue()] run until the
    cursor is exhausted: every visited record is deleted. *)
Definition cursor_delete_all (visited : list (Key * A)) (m : gmap Key A)
  : gmap Key A :=
  foldl (fun acc r => delete r.1 acc) m visited.
End Store.

(** ** Outcomes *)

Inductive error :=
  | NotFoundError      (* [new Error('...')]: no such session or message *)
  | DataError          (* the record's key path gives no valid key *)
  | ConstraintError    (* [add] of a primary key that is taken *)
  | TransactionError.  (* [tx.error] of a transaction that was aborted *)

#[global] Instance error_eq_dec : EqDecision error.
Proof. solve_decision. Defined.

(** How the promise returned by a method settles; [Pending] is a promise that
    never settles. *)
Inductive outcome (A : Type) :=
  | Resolved (a : A)
  | Rejected (e : error)
  | Pending.
Arguments Resolved {A} a.
Arguments Rejected {A} e.
Arguments Pending {A}.

(** The requests of one transaction run in the order they were issued; the
    first one that fails aborts the transaction. *)
Inductive result (A : Type) :=
  | Ok (a : A)
  | Abort (e : error).
Arguments Ok {A} a.
Arguments Abort {A} e.

Definition bind {A B : Type} (r : result A) (k : A -> result B) : result B :=
  match r with
  | Ok a => k a
  | Abort e => Abort e
  end.

Notation "x <- r ;; k" := (bind r (fun x => k))
  (at level 100, r at next level, right associativity).

(** [store.add(record)] under primary key [k]. *)
Definition store_add {A : Type} (k : Key) (r : A) (m : gmap Key A)
  : result (gmap Key A) :=
  match m !! k with
  | Some _ => Abort ConstraintError
  | None => Ok (<[k := r]> m)
  end.

(** The queued [add] requests of a bulk save. *)
Fixpoint add_all {A : Type} (q : list (Key * A)) (m : gmap Key A)
  : result (gmap Key A) :=
  match q with
  | [] => Ok m
  | (k, r) :: q' => m' <- store_add k r m ;; add_all q' m'
  end.

(** [Array.prototype.sort(cmp)]: a stable sort; [x] goes before [y] when
    [cmp x y <= 0] and [x] came first. *)
Fixpoint sort_insert {A : Type} (cmp : A -> A -> Z) (x : A) (l : list A)
  : list A :=
  match l with
  | [] => [x]
  | y :: l' =>
      if cmp x y <=? 0 then x :: y :: l' else y :: sort_insert cmp x l'
  end.

Definition js_sort {A : Type} (cmp : A -> A -> Z) (l : list A) : list A :=
  foldr (sort_insert cmp) [] l.

(** ** The database *)

(** A record of the [resources] store, as [saveResource] builds it. *)
Record Resource := {
  res_id : jsstring;
  res_sessionId : jsstring;
  res_type : jsstring;
  res_key : jsstring;
  res_data : value;
  res_timestamp : Z
}.

(** A record of the [customReplies] store, as [saveCustomReplies] builds
    it. *)
Record CustomReply := {
  cr_id : jsstring;
  cr_sessionId : jsstring;
  cr_text : value;
  cr_enabled : bool;
  cr_timestamp : Z
}.

(** A record of the [anniversaries] store, as [saveAnniversaries] builds
    it. *)
Record Anniversary := {
  an_id : jsstring;
  an_sessionId : jsstring;
  an_name : value;
  an_date : value;
  an_type : value;
  an_createdAt : Z
}.

(** The six object stores.  Records of [sessions], [messages] and [settings]
    are the caller's objects; their key paths are [id], [id] and
    [sessionId]. *)
Record DB := {
  sessions : gmap Key obj;
  messages : gmap Key obj;
  resources : gmap Key Resource;
  settings : gmap Key obj;
  customReplies : gmap Key CustomReply;
  anniversaries : gmap Key Anniversary
}.

Definition empty_db : DB :=
  {| sessions := ∅; messages := ∅; resources := ∅; settings := ∅;
     customReplies := ∅; anniversaries := ∅ |}.

Definition with_sessions (m : gmap Key obj) (db : DB) : DB :=
  {| sessions := m; messages := messages db; resources := resources db;
     settings := settings db; customReplies := customReplies db;
     anniversaries := anniversaries db |}.

Definition with_messages (m : gmap Key obj) (db : DB) : DB :=
  {| sessions := sessions db; messages := m; resources := resources db;
     settings := settings db; customReplies := customReplies db;
     anniversaries := anniversaries db |}.

Definition with_resources (m : gmap Key Resource) (db : DB) : DB :=
  {| sessions := sessions db; messages := messages db; resources := m;
     settings := settings db; customReplies := customReplies db;
     anniversaries := anniversaries db |}.

Definition with_settings (m : gmap Key obj) (db : DB) : DB :=
  {| sessions := sessions db; messages := messages db;
     resources := resources db; settings := m;
     customReplies := customReplies db; anniversaries := anniversaries db |}.

Definition with_customReplies (m : gmap Key CustomReply) (db : DB) : DB :=
  {| sessions := sessions db; messages := messages db;
     resources := resources db; settings := settings db;
     customReplies := m; anniversaries := anniversaries db |}.

Definition with_anniversaries (m : gmap Key Anniversary) (db : DB) : DB :=
  {| sessions := sessions db; messages := messages db;
     resources := resources db; settings := settings db;
     customReplies := customReplies db; anniversaries := m |}.

(** The indexes created by [onupgradeneeded]. *)
Definition msg_sessionId (o : obj) : option Key := to_key (get o "sessionId").
Definition reply_sessionId (r : CustomReply) : option Key :=
  Some (KStr (cr_sessionId r)).
Definition ann_sessionId (r : Anniversary) : option Key :=
  Some (KStr (an_sessionId r)).
Definition res_sessionId_type (r : Resource) : option (list Key) :=
  Some [KStr (res_sessionId r); KStr (res_type r)].

(** ** The connection: [open] and the guard of the accessors *)

Definition dbVersion : nat := 2.

Definition storeList : list string :=
  ["sessions"; "messages"; "resources"; "settings"; "customReplies";
   "anniversaries"]%string.

(** The [ChatDatabase] object, the database it names and the open requests in
    flight. *)
Record Conn := {
  this_db : option nat;       (* [this.db]; connections are numbered *)
  version : nat;              (* version of the stored database, 0 if none *)
  objectStoreNames : list string;
  opened : nat;               (* connections established so far *)
  upgrades : nat;             (* runs of [onupgradeneeded] so far *)
  requests : nat              (* [indexedDB.open] requests not yet answered *)
}.

Definition new_conn : Conn :=
  {| this_db := None; version := 0; objectStoreNames := []; opened := 0;
     upgrades := 0; requests := 0 |}.

(** [onupgradeneeded]: each store is created unless it is there already. *)
Definition create_missing (names : list string) : list string :=
  foldl (fun acc n => if bool_decide (n ∈ acc) then acc else acc ++ [n])
        names storeList.

(** [open()]: a call of [indexedDB.open(this.dbName, this.dbVersion)]. *)
Definition open (c : Conn) : Conn :=
  {| this_db := this_db c; version := version c;
     objectStoreNames := objectStoreNames c; opened := opened c;
     upgrades := upgrades c; requests := S (requests c) |}.

(** The engine answers one open request: a stored version above the
    requested one fails the request ([onerror]); a lower one runs the upgrade
    first; [onsuccess] stores the connection in [this.db]. *)
Definition answer (c : Conn) : Conn :=
  match requests c with
  | O => c
  | S pending =>
      if (dbVersion <? version c)%nat then
        {| this_db := this_db c; version := version c;
           objectStoreNames := objectStoreNames c; opened := opened c;
           upgrades := upgrades c; requests := pending |}
      else
        let up := (version c <? dbVersion)%nat in
        {| this_db := Some (opened c);
           version := dbVersion;
           objectStoreNames :=
             if up then create_missing (objectStoreNames c)
             else objectStoreNames c;
           opened := S (opened c);
           upgrades := if up then S (upgrades c) else upgrades c;
           requests := pending |}
  end.

(** The first line of every accessor: [if (!this.db) await this.open()]. *)
Definition ensure_open (c : Conn) : Conn :=
  match this_db c with
  | None => open c
  | Some _ => c
  end.

Inductive event :=
  | CallOpen       (* the application calls [open()] *)
  | CallAccessor   (* the application calls an accessor, e.g. [getSessions] *)
  | Answer.        (* the engine answers the oldest open request *)

Definition step (c : Conn) (e : event) : Conn :=
  match e with
  | CallOpen => open c
  | CallAccessor => ensure_open c
  | Answer => answer c
  end.

Definition run (c : Conn) (trace : list event) : Conn := foldl step c trace.

(** ** Sessions *)

(** [getSessions()]. *)
Definition getSessions (db : DB) : list obj := (records (sessions db)).*2.

(** [createSession(sessionData)]. *)
Definition createSession (sessionData : obj) (db : DB) : DB * outcome Key :=
  match to_key (get sessionData "id") with
  | None => (db, Rejected DataError)
  | Some k =>
      match store_add k sessionData (sessions db) with
      | Ok m => (with_sessions m db, Resolved k)
      | Abort e => (db, Rejected e)
      end
  end.

(** [updateSession(sessionId, updates)].  When the merged record has no valid
    [id], [store.put] throws inside the success handler of the [get] request
    and the promise is never settled. *)
Definition updateSession (sessionId : jsstring) (updates : obj) (db : DB)
  : DB * outcome unit :=
  match sessions db !! KStr sessionId with
  | Some session =>
      let updatedSession := spread session updates in
      match to_key (get updatedSession "id") with
      | Some k => (with_sessions (<[k := updatedSession]> (sessions db)) db,
                   Resolved tt)
      | None => (db, Pending)
      end
  | None => (db, Rejected NotFoundError)
  end.

(** The helper [deleteFromStore(storeName, indexName)] of [deleteSession],
    and the same loop as the bulk saves run it. *)
Definition deleteFromStore {A : Type} (ix : A -> option Key)
    (sessionId : jsstring) (m : gmap Key A) : gmap Key A :=
  cursor_delete_all (index_only ix (KStr sessionId) m) m.

(** The upper end of the range of [deleteResources]: the string of the one
    code unit 0xFFFF, written '\uffff' in the source. *)
Definition sentinel : jsstring := [65535%N].

(** The helper [deleteResources] of [deleteSession]. *)
Definition deleteResources (sessionId : jsstring) (m : gmap Key Resource)
  : gmap Key Resource :=
  cursor_delete_all
    (index_bound res_sessionId_type
       [KStr sessionId; KStr []] [KStr sessionId; KStr sentinel] m)
    m.

(** [deleteSession(sessionId)]: one transaction over the six stores. *)
Definition deleteSession (sessionId : jsstring) (db : DB) : DB * outcome unit :=
  let sessions' := delete (KStr sessionId) (sessions db) in
  let messages' := deleteFromStore msg_sessionId sessionId (messages db) in
  let customReplies' :=
    deleteFromStore reply_sessionId sessionId (customReplies db) in
  let anniversaries' :=
    deleteFromStore ann_sessionId sessionId (anniversaries db) in
  let resources' := deleteResources sessionId (resources db) in
  let settings' := delete (KStr sessionId) (settings db) in
  ({| sessions := sessions'; messages := messages'; resources := resources';
      settings := settings'; customReplies := customReplies';
      anniversaries := anniversaries' |}, Resolved tt).

(** ** Messages *)

(** The caller's objects live in a heap; an array of messages is a list of
    references into it, so the same object can be listed more than once. *)
Abbreviation heap := (nat -> obj).

(** The identifier [`${sessionId}_msg_${Date.now()}_${suffix}`], where
    [suffix] is [Math.random().toString(36).substr(2, 9)]. *)
Definition message_id (sessionId : jsstring) (now : Z) (suffix : jsstring)
  : jsstring :=
  sessionId ++ js "_msg_" ++ dec now ++ js "_" ++ suffix.

(** The two assignments that [saveMessages] and [addMessage] make on a
    message before adding it; the second component tells whether an
    identifier was generated, which takes one reading of the clock and one
    random suffix. *)
Definition fill_message (sessionId : jsstring) (now : Z) (suffix : jsstring)
    (msg : obj) : obj * bool :=
  let msg1 :=
    if truthy (get msg "sessionId") then msg
    else <["sessionId" := VStr sessionId]> msg in
  if truthy (get msg1 "id") then (msg1, false)
  else (<["id" := VStr (message_id sessionId now suffix)]> msg1, true).

(** What the synchronous loop [messages.forEach(...)] leaves behind: the
    heap, the number of identifiers generated, the [add] requests issued (each
    with the copy of the message taken by [store.add]) and the exception that
    cut the loop short, if any. *)
Record loop := {
  lp_heap : heap;
  lp_draws : nat;
  lp_queue : list (Key * obj);
  lp_thrown : option error
}.

(** [messages.forEach(msg => { ...; store.add(msg) })], started after [n]
    identifiers have been generated.  [store.add] throws [DataError] at once
    when the message has no valid key; whether the key is taken is only found
    out when the request runs. *)
Fixpoint forEach_message (sessionId : jsstring) (clock : nat -> Z)
    (random : nat -> jsstring) (msgs : list nat) (h : heap) (n : nat) : loop :=
  match msgs with
  | [] => {| lp_heap := h; lp_draws := n; lp_queue := []; lp_thrown := None |}
  | ref :: rest =>
      let '(msg, drawn) := fill_message sessionId (clock n) (random n) (h ref) in
      let h' := <[ref := msg]> h in
      let n' := if drawn then S n else n in
      match to_key (get msg "id") with
      | None =>
          {| lp_heap := h'; lp_draws := n'; lp_queue := [];
             lp_thrown := Some DataError |}
      | Some k =>
          let r := forEach_message sessionId clock random rest h' n' in
          {| lp_heap := lp_heap r; lp_draws := lp_draws r;
             lp_queue := (k, msg) :: lp_queue r; lp_thrown := lp_thrown r |}
      end
  end.

(** [saveMessages(sessionId, messages)]: one transaction on [messages]; the
    old messages of the session are deleted through the index, then the
    queued adds run.  A failing add aborts the transaction and undoes the
    deletions as well; an exception thrown by the loop rejects the promise
    but leaves the requests issued so far to commit. *)
Definition saveMessages (sessionId : jsstring) (msgs : list nat)
    (clock : nat -> Z) (random : nat -> jsstring) (h : heap) (db : DB)
  : heap * DB * outcome unit :=
  let store := deleteFromStore msg_sessionId sessionId (messages db) in
  let r := forEach_message sessionId clock random msgs h 0 in
  match add_all (lp_queue r) store, lp_thrown r with
  | Ok store', None => (lp_heap r, with_messages store' db, Resolved tt)
  | Ok store', Some e => (lp_heap r, with_messages store' db, Rejected e)
  | Abort _, None => (lp_heap r, db, Rejected TransactionError)
  | Abort _, Some e => (lp_heap r, db, Rejected e)
  end.

(** [addMessage(sessionId, message)]. *)
Definition addMessage (sessionId : jsstring) (ref : nat) (now : Z)
    (suffix : jsstring) (h : heap) (db : DB) : heap * DB * outcome Key :=
  let '(msg, _) := fill_message sessionId now suffix (h ref) in
  let h' := <[ref := msg]> h in
  match to_key (get msg "id") with
  | None => (h', db, Rejected DataError)
  | Some k =>
      match store_add k msg (messages db) with
      | Ok store' => (h', with_messages store' db, Resolved k)
      | Abort e => (h', db, Rejected e)
      end
  end.

(** The messages that the index files under a session. *)
Definition messages_of (sessionId : jsstring) (db : DB) : list (Key * obj) :=
  index_only msg_sessionId (KStr sessionId) (messages db).

(** ** Resources *)

(** The identifier [`${sessionId}_${type}_${key}`]. *)
Definition resource_id (sessionId type key : jsstring) : jsstring :=
  sessionId ++ js "_" ++ type ++ js "_" ++ key.

(** [saveResource(sessionId, type, key, data)]. *)
Definition saveResource (sessionId type key : jsstring) (data : value)
    (now : Z) (db : DB) : DB * outcome unit :=
  let id := resource_id sessionId type key in
  let item :=
    {| res_id := id; res_sessionId := sessionId; res_type := type;
       res_key := key; res_data := data; res_timestamp := now |} in
  (with_resources (<[KStr id := item]> (resources db)) db, Resolved tt).

(** [loadResource(sessionId, type, key)]. *)
Definition loadResource (sessionId type key : jsstring) (db : DB) : value :=
  match resources db !! KStr (resource_id sessionId type key) with
  | Some r => res_data r
  | None => VNull
  end.

(** [deleteResource(sessionId, type, key)]. *)
Definition deleteResource (sessionId type key : jsstring) (db : DB)
  : DB * outcome unit :=
  (with_resources
     (delete (KStr (resource_id sessionId type key)) (resources db)) db,
   Resolved tt).

(** The rows of [resources] that carry a given triple. *)
Definition resources_of (sessionId type key : jsstring) (db : DB)
  : gmap Key Resource :=
  filter (fun kr => res_sessionId kr.2 = sessionId /\ res_type kr.2 = type
                    /\ res_key kr.2 = key)
         (resources db).

(** ** Settings *)

(** [saveSettings(sessionId, settings)]: the record [{ sessionId,
    ...settings }] is put under its own [sessionId] property. *)
Definition saveSettings (sessionId : jsstring) (fields : obj) (db : DB)
  : DB * outcome unit :=
  let item := spread {["sessionId" := VStr sessionId]} fields in
  match to_key (get item "sessionId") with
  | None => (db, Rejected DataError)
  | Some k => (with_settings (<[k := item]> (settings db)) db, Resolved tt)
  end.

(** [loadSettings(sessionId)]: the record, or [null]. *)
Definition loadSettings (sessionId : jsstring) (db : DB) : option obj :=
  settings db !! KStr sessionId.

(** ** Custom replies *)

(** The record that [saveCustomReplies] builds for the reply at [idx]; the
    object literal reads the clock twice. *)
Definition reply_item (sessionId : jsstring) (clock : nat -> Z) (idx : nat)
    (reply : obj) : CustomReply :=
  {| cr_id := sessionId ++ js "_reply_" ++ dec (clock (2 * idx)%nat)
                ++ js "_" ++ dec (Z.of_nat idx);
     cr_sessionId := sessionId;
     cr_text := get reply "text";
     cr_enabled := not_false (get reply "enabled");
     cr_timestamp := clock (2 * idx + 1)%nat |}.

(** The [add] requests that [replies.forEach((reply, idx) => ...)] issues. *)
Definition reply_queue (sessionId : jsstring) (clock : nat -> Z)
    (replies : list obj) : list (Key * CustomReply) :=
  imap (fun idx reply =>
          let item := reply_item sessionId clock idx reply in
          (KStr (cr_id item), item))
       replies.

(** [saveCustomReplies(sessionId, replies)]. *)
Definition saveCustomReplies (sessionId : jsstring) (replies : list obj)
    (clock : nat -> Z) (db : DB) : DB * outcome unit :=
  let store := deleteFromStore reply_sessionId sessionId (customReplies db) in
  match add_all (reply_queue sessionId clock replies) store with
  | Ok store' => (with_customReplies store' db, Resolved tt)
  | Abort _ => (db, Rejected TransactionError)
  end.

(** An entry [{ text, id }] of the list that [loadCustomReplies] returns. *)
Record ReplyView := { rv_text : value; rv_id : jsstring }.

(** The records of a session that [loadCustomReplies] keeps, in the order it
    gives them: [filter(r => r.enabled !== false)] and then
    [sort((a, b) => b.timestamp - a.timestamp)]. *)
Definition enabledReplies (sessionId : jsstring) (db : DB) : list CustomReply :=
  js_sort (fun a b => cr_timestamp b - cr_timestamp a)
    (List.filter (fun r => negb (Bool.eqb (cr_enabled r) false))
       (index_only reply_sessionId (KStr sessionId) (customReplies db)).*2).

(** [loadCustomReplies(sessionId)]. *)
Definition loadCustomReplies (sessionId : jsstring) (db : DB) : list ReplyView :=
  (fun r => {| rv_text := cr_text r; rv_id := cr_id r |})
    <$> enabledReplies sessionId db.

(** ** Anniversaries *)

(** The record that [saveAnniversaries] builds for the entry at [idx]. *)
Definition ann_item (sessionId : jsstring) (clock : nat -> Z) (idx : nat)
    (ann : obj) : Anniversary :=
  {| an_id := sessionId ++ js "_ann_" ++ dec (clock (2 * idx)%nat)
                ++ js "_" ++ dec (Z.of_nat idx);
     an_sessionId := sessionId;
     an_name := get ann "name";
     an_date := get ann "date";
     an_type := js_or (get ann "type") (VStr (js "anniversary"));
     an_createdAt := clock (2 * idx + 1)%nat |}.

(** The [add] requests that [anniversaries.forEach((ann, idx) => ...)]
    issues. *)
Definition ann_queue (sessionId : jsstring) (clock : nat -> Z)
    (anns : list obj) : list (Key * Anniversary) :=
  imap (fun idx ann =>
          let item := ann_item sessionId clock idx ann in
          (KStr (an_id item), item))
       anns.

(** [saveAnniversaries(sessionId, anniversaries)]. *)
Definition saveAnniversaries (sessionId : jsstring) (anns : list obj)
    (clock : nat -> Z) (db : DB) : DB * outcome unit :=
  let store := deleteFromStore ann_sessionId sessionId (anniversaries db) in
  match add_all (ann_queue sessionId clock anns) store with
  | Ok store' => (with_anniversaries store' db, Resolved tt)
  | Abort _ => (db, Rejected TransactionError)
  end.

(** ** Notions used by the statements *)

(** The code unit of the underscore that separates the parts of an
    identifier. *)
Definition underscore : N := 95%N.

(** The identifiers generated by a run of [messages.forEach] that drew [n]
    times from the clock and the random source. *)
Definition generated_ids (sessionId : jsstring) (clock : nat -> Z)
    (random : nat -> jsstring) (n : nat) : list jsstring :=
  (fun i => message_id sessionId (clock i) (random i)) <$> seq 0 n.

(** Every record of [resources] was written by [saveResource]: its primary
    key is the identifier of its own triple. *)
Definition res_wf (db : DB) : Prop :=
  forall k r,
    resources db !! k = Some r ->
    k = KStr (resource_id (res_sessionId r) (res_type r) (res_key r)).

(** A session with one resource whose type lies above the sentinel. *)
Definition orphan_db : DB :=
  let db := (createSession {["id" := VStr (js "s1")]} empty_db).1 in
  (saveResource (js "s1") (sentinel ++ sentinel) (js "bg") (VStr (js "blob"))
     1 db).1.

(** The value of a message's [sessionId] after the first assignment of
    [fill_message]. *)
Definition sid_final (sessionId : jsstring) (v : value) : value :=
  if truthy v then v else VStr sessionId.


(** ** The remaining methods *)

(** [isInitialized()]: [this.db !== null]. *)
Definition isInitialized (c : Conn) : bool :=
  match this_db c with
  | Some _ => true
  | None => false
  end.

(** [updateMessage(messageId, updates)].  [store.get] throws [DataError] in
    the executor of the promise when [messageId] is no valid key; a missing
    message rejects with [new Error('消息不存在')], the model's
    [NotFoundError]. *)
Definition updateMessage (messageId : value) (updates : obj) (db : DB)
  : DB * outcome unit :=
  match to_key messageId with
  | None => (db, Rejected DataError)
  | Some id =>
      match messages db !! id with
      | Some message =>
          let updatedMessage := spread message updates in
          match to_key (get updatedMessage "id") with
          | Some k =>
              (with_messages (<[k := updatedMessage]> (messages db)) db,
               Resolved tt)
          | None => (db, Pending)
          end
      | None => (db, Rejected NotFoundError)
      end
  end.

(** [TimeClip]: a time value is at most 8.64e15 milliseconds from the
    epoch. *)
Definition time_clip (n : Z) : option Z :=
  if Z.abs n <=? 8640000000000000 then Some n else None.

Section Dates.
(** [Date.parse]: the time value of a date string, [None] for a string that
    is no date. *)
Context (parse : jsstring -> option Z).

(** The time value of [new Date(v)]; [None] is an invalid date. *)
Definition date_value (v : value) : option Z :=
  match v with
  | VUndef => None
  | VNull => Some 0
  | VBool b => Some (if b then 1 else 0)
  | VNum n => time_clip n
  | VStr s => parse s
  end.

(** [new Date(a) - new Date(b)] as [sort] reads it: a [NaN] counts as 0. *)
Definition date_compare (a b : value) : Z :=
  match date_value a, date_value b with
  | Some x, Some y => x - y
  | _, _ => 0
  end.

(** [loadMessages(sessionId)].  With an invalid date among the timestamps the
    comparator is no ordering and the order of the result is the engine's
    choice; the order given here is that of a stable insertion sort. *)
Definition loadMessages (sessionId : jsstring) (db : DB) : list obj :=
  js_sort (fun a b => date_compare (get a "timestamp") (get b "timestamp"))
    (index_only msg_sessionId (KStr sessionId) (messages db)).*2.

(** An entry [{ name, date, type }] of the list that [loadAnniversaries]
    returns. *)
Record AnnView := { av_name : value; av_date : value; av_type : value }.

(** The records of a session in the order [loadAnniversaries] gives them. *)
Definition sortedAnniversaries (sessionId : jsstring) (db : DB)
  : list Anniversary :=
  js_sort (fun a b => date_compare (an_date a) (an_date b))
    (index_only ann_sessionId (KStr sessionId) (anniversaries db)).*2.

(** [loadAnniversaries(sessionId)]. *)
Definition loadAnniversaries (sessionId : jsstring) (db : DB) : list AnnView :=
  (fun r => {| av_name := an_name r; av_date := an_date r;
               av_type := js_or (an_type r) (VStr (js "anniversary")) |})
    <$> sortedAnniversaries sessionId db.
End Dates.

(** The records of a session and type in the order [loadResourcesByType]
    gives them: [index.getAll([sessionId, type])], the range of the one key,
    then [sort((a, b) => b.timestamp - a.timestamp)]. *)
Definition resourcesByType (sessionId type : jsstring) (db : DB)
  : list Resource :=
  js_sort (fun a b => res_timestamp b - res_timestamp a)
    (index_bound res_sessionId_type
       [KStr sessionId; KStr type] [KStr sessionId; KStr type]
       (resources db)).*2.

(** [loadResourcesByType(sessionId, type)]. *)
Definition loadResourcesByType (sessionId type : jsstring) (db : DB)
  : list value :=
  res_data <$> resourcesByType sessionId type db.

(** The object that [getStats()] returns: [store.count()] of each table. *)
Record Stats := {
  st_sessions : nat;
  st_messages : nat;
  st_resources : nat;
  st_settings : nat;
  st_customReplies : nat;
  st_anniversaries : nat
}.

(** [getStats()]. *)
Definition getStats (db : DB) : Stats :=
  {| st_sessions := size (sessions db);
     st_messages := size (messages db);
     st_resources := size (resources db);
     st_settings := size (settings db);
     st_customReplies := size (customReplies db);
     st_anniversaries := size (anniversaries db) |}.

(** The cursor loop of [cleanupOldData]: every record is visited, the doomed
    ones are deleted. *)
Definition cursor_sweep {A : Type} (doomed : A -> bool)
    (visited : list (Key * A)) (m : gmap Key A) : gmap Key A :=
  foldl (fun acc r => if doomed r.2 then delete r.1 acc else acc) m visited.

(** The integers that a number of the source holds exactly whatever the
    operation that produced them, [Number.isSafeInteger]. *)
Definition safe_integer (z : Z) : Prop := Z.abs z <= 2 ^ 53 - 1.

(** The cutoff of [cleanupOldData(maxAgeDays = 180)] at time [now].  The
    source computes it in floating point; it is this integer when [now], the
    product and the difference are safe integers, which every reading of
    [Date.now()] and every age up to a hundred million days are. *)
Definition cutoff (maxAgeDays : option Z) (now : Z) : Z :=
  now - default 180 maxAgeDays * 24 * 60 * 60 * 1000.

(** [cleanupOldData(maxAgeDays)]; [None] is a call without argument. *)
Definition cleanupOldData (maxAgeDays : option Z) (now : Z) (db : DB)
  : DB * outcome unit :=
  (with_resources
     (cursor_sweep (fun r => res_timestamp r <? cutoff maxAgeDays now)
        (records (resources db)) (resources db))
     db,
   Resolved tt).

(** ** Invariants of the stores *)

(** A store with key path [id] files every record under its own [id]. *)
Definition keyed_by_id (m : gmap Key obj) : Prop :=
  forall k o, m !! k = Some o -> to_key (get o "id") = Some k.

(** Every record of [customReplies] was written by [saveCustomReplies]: its
    key is an identifier built from its own [sessionId]. *)
Definition replies_wf (db : DB) : Prop :=
  forall k r,
    customReplies db !! k = Some r ->
    exists t i : Z,
      k = KStr (cr_sessionId r ++ js "_reply_" ++ dec t ++ js "_" ++ dec i).

(** Every record of [anniversaries] was written by [saveAnniversaries]. *)
Definition anns_wf (db : DB) : Prop :=
  forall k r,
    anniversaries db !! k = Some r ->
    exists t i : Z,
      k = KStr (an_sessionId r ++ js "_ann_" ++ dec t ++ js "_" ++ dec i).


(** [a] is not after [b], both being valid dates. *)
Definition date_le (parse : jsstring -> option Z) (a b : value) : Prop :=
  match date_value parse a, date_value parse b with
  | Some x, Some y => x <= y
  | _, _ => False
  end.

(** What holds of the connection after any run of calls and answers from a
    fresh object and no database. *)
Definition conn_inv (c : Conn) : Prop :=
  match this_db c with
  | None => opened c = 0%nat
  | Some i => opened c = S i
  end
  /\ (version c = 0%nat /\ objectStoreNames c = [] /\ upgrades c = 0%nat
      /\ opened c = 0%nat
      \/ version c = dbVersion /\ upgrades c = 1%nat
         /\ objectStoreNames c = create_missing []).


(** * Properties *)

(** ** Strings and decimal numerals *)

Lemma js_inj (s t : string) : js s = js t -> s = t.
Proof.
  unfold js. intros H.
  rewrite <- (string_of_list_ascii_of_string s).
  rewrite <- (string_of_list_ascii_of_string t).
  f_equal. revert H.
  generalize (list_ascii_of_string s) (list_ascii_of_string t).
  induction l as [|a l IH]; intros [|b l'] H; simplify_eq/=; try done.
  f_equal; [|by apply IH].
  rewrite <- (ascii_N_embedding a), <- (ascii_N_embedding b). by f_equal.
Qed.

Lemma to_int_proper (n : Z) :
  Z.to_int n <> Decimal.Pos Decimal.Nil
  /\ Z.to_int n <> Decimal.Neg Decimal.Nil.
Proof.
  destruct n as [|p|p]; simpl; split; try discriminate;
    intros [= H]; by apply (Unsigned.to_uint_nonnil p).
Qed.

Lemma dec_inj (n m : Z) : dec n = dec m -> n = m.
Proof.
  unfold dec. intros H%js_inj.
  apply DecimalZ.to_int_inj.
  destruct (to_int_proper n) as [Hn1 Hn2], (to_int_proper m) as [Hm1 Hm2].
  pose proof (NilZero.isi _ Hn1 Hn2) as E1.
  pose proof (NilZero.isi _ Hm1 Hm2) as E2.
  rewrite H in E1. congruence.
Qed.

Lemma uint_no_underscore (d : Decimal.uint) :
  underscore ∉ js (NilEmpty.string_of_uint d).
Proof.
  unfold js, underscore.
  induction d; simpl; rewrite ?not_elem_of_cons; try (split; [done|assumption]).
  apply not_elem_of_nil.
Qed.

Lemma dec_no_underscore (n : Z) : underscore ∉ dec n.
Proof.
  unfold dec. destruct (Z.to_int n) as [d|d]; simpl.
  - destruct d; try apply (uint_no_underscore (_ _)).
    unfold js, underscore; simpl. rewrite not_elem_of_cons.
    split; [done|apply not_elem_of_nil].
  - unfold js at 1. simpl. fold (js (NilZero.string_of_uint d)).
    rewrite not_elem_of_cons. split; [done|].
    destruct d; try apply (uint_no_underscore (_ _)).
    unfold js, underscore; simpl. rewrite not_elem_of_cons.
    split; [done|apply not_elem_of_nil].
Qed.

(** A list is cut at the first occurrence of a separator in one way only. *)
Lemma split_at_first {A : Type} (x : A) (l1 l2 r1 r2 : list A) :
  x ∉ l1 -> x ∉ l2 -> l1 ++ x :: r1 = l2 ++ x :: r2 -> l1 = l2 /\ r1 = r2.
Proof.
  revert l2. induction l1 as [|a l1 IH]; intros [|b l2] H1 H2 E; simplify_eq/=.
  - done.
  - exfalso. apply H2. left.
  - exfalso. apply H1. left.
  - rewrite not_elem_of_cons in H1, H2.
    destruct H1 as [_ H1], H2 as [_ H2].
    by destruct (IH l2 H1 H2 ltac:(assumption)) as [-> ->].
Qed.

(** ** Stores, indexes and cursors *)

Section StoreFacts.
Context {A : Type}.
Implicit Types (m : gmap Key A) (k : Key) (r : A).

Lemma key_insert_perm (x : Key * A) l : key_insert x l ≡ₚ x :: l.
Proof.
  induction l as [|y l IH]; simpl; [done|].
  destruct (cmp_le _); [done|].
  rewrite IH. apply Permutation_swap.
Qed.

Lemma records_perm m : records m ≡ₚ map_to_list m.
Proof.
  unfold records. induction (map_to_list m) as [|x l IH]; simpl; [done|].
  by rewrite key_insert_perm, IH.
Qed.

Lemma elem_of_records m k r : (k, r) ∈ records m <-> m !! k = Some r.
Proof. rewrite records_perm. apply elem_of_map_to_list. Qed.

Lemma NoDup_records m : NoDup (records m).
Proof. rewrite records_perm. apply NoDup_map_to_list. Qed.

Lemma elem_of_List_filter (f : Key * A -> bool) l x :
  x ∈ List.filter f l <-> x ∈ l /\ f x = true.
Proof. rewrite !list_elem_of_In. apply filter_In. Qed.

Lemma lookup_cursor_delete_all (visited : list (Key * A)) m k :
  cursor_delete_all visited m !! k
  = if decide (k ∈ visited.*1) then None else m !! k.
Proof.
  unfold cursor_delete_all. revert m.
  induction visited as [|[k' r'] visited IH]; intros m; cbn [foldl].
  - destruct (decide _) as [Hin|?]; [|done]. by apply elem_of_nil in Hin.
  - rewrite IH, fmap_cons. cbn [fst].
    destruct (decide (k ∈ visited.*1)) as [Hin|Hout].
    + rewrite decide_True; [done|]. by right.
    + destruct (decide (k = k')) as [->|Hne].
      * rewrite lookup_delete_eq, decide_True; [done|]. left.
      * rewrite lookup_delete_ne by done.
        rewrite decide_False; [done|].
        rewrite elem_of_cons. by intros [?|?].
Qed.

(** Deleting through a cursor over the records selected by [f] removes
    these records and no other. *)
Lemma lookup_cursor_filter (f : Key * A -> bool) m k r :
  cursor_delete_all (List.filter f (records m)) m !! k = Some r
  <-> m !! k = Some r /\ f (k, r) = false.
Proof.
  rewrite lookup_cursor_delete_all. destruct (decide _) as [Hin|Hout].
  - split; [done|]. intros [Hk Hf].
    apply list_elem_of_fmap in Hin as ([k' r'] & -> & Hin).
    apply elem_of_List_filter in Hin as [Hin Hf']. simpl in *.
    apply elem_of_records in Hin. congruence.
  - split; [|by intros [? _]]. intros Hk. split; [done|].
    destruct (f (k, r)) eqn:Hf; [|done]. exfalso. apply Hout.
    apply list_elem_of_fmap. exists (k, r). split; [done|].
    apply elem_of_List_filter. split; [|done]. by apply elem_of_records.
Qed.

Lemma lookup_deleteFromStore (ix : A -> option Key) sessionId m k r :
  deleteFromStore ix sessionId m !! k = Some r
  <-> m !! k = Some r /\ ix r <> Some (KStr sessionId).
Proof.
  unfold deleteFromStore, index_only. rewrite lookup_cursor_filter. simpl.
  by rewrite bool_decide_eq_false.
Qed.

Lemma deleteFromStore_None (ix : A -> option Key) sessionId m k :
  m !! k = None -> deleteFromStore ix sessionId m !! k = None.
Proof.
  intros Hk. destruct (deleteFromStore _ _ _ !! k) as [r|] eqn:E; [|done].
  apply lookup_deleteFromStore in E as [E _]. congruence.
Qed.
End StoreFacts.

(** ** The order of keys *)

Lemma str_compare_refl (a : jsstring) : str_compare a a = Eq.
Proof. induction a as [|x a IH]; simpl; [done|]. by rewrite N.compare_refl. Qed.

Lemma str_compare_eq (a b : jsstring) : str_compare a b = Eq -> a = b.
Proof.
  revert b. induction a as [|x a IH]; intros [|y b]; simpl; try done.
  destruct (x ?= y)%N eqn:E; try done.
  apply N.compare_eq in E as ->. by intros ->%IH.
Qed.

Lemma str_compare_antisym (a b : jsstring) :
  str_compare b a = CompOpp (str_compare a b).
Proof.
  revert b. induction a as [|x a IH]; intros [|y b]; simpl; try done.
  rewrite (N.compare_antisym x y). destruct (x ?= y)%N; simpl; auto.
Qed.

(** The range of [deleteResources] holds the index keys of the session whose
    type is not above the sentinel. *)
Lemma in_bound_resources (sessionId s t : jsstring) :
  in_bound [KStr sessionId; KStr []] [KStr sessionId; KStr sentinel]
           [KStr s; KStr t] = true
  <-> s = sessionId /\ cmp_le (str_compare t sentinel) = true.
Proof.
  unfold in_bound. cbn [arr_compare key_compare]. rewrite andb_true_iff.
  rewrite (str_compare_antisym s sessionId).
  generalize (str_compare t sentinel). intros c.
  destruct (str_compare s sessionId) eqn:E; cbn [CompOpp].
  - apply str_compare_eq in E as ->. destruct t, c; simpl; intuition congruence.
  - split; [intros [[=] _]|intros [-> _]]. by rewrite str_compare_refl in E.
  - split; [intros [_ [=]]|intros [-> _]]. by rewrite str_compare_refl in E.
Qed.

(** The types that the range reaches: the empty string, the strings that
    begin below the code unit 0xFFFF, and the sentinel itself. *)
Lemma below_sentinel (t : jsstring) :
  cmp_le (str_compare t sentinel) = true
  <-> t = [] \/ (exists c t', t = c :: t' /\ (c < 65535)%N) \/ t = sentinel.
Proof.
  unfold sentinel. destruct t as [|c t]; cbn [str_compare].
  - split; [by left|done].
  - destruct (c ?= 65535)%N eqn:E.
    + apply N.compare_eq in E as ->. destruct t as [|c' t]; simpl.
      * split; [by right; right|done].
      * split; [done|].
        intros [?|[(c & t' & [= <- <-] & Hlt)|?]]; [done|lia|done].
    + apply N.compare_lt_iff in E. split; [|done].
      intros _. right; left. by exists c, t.
    + apply N.compare_gt_iff in E. split; [done|].
      intros [?|[(c' & t' & [= <- <-] & Hlt)|[= -> ->]]]; [done|lia|lia].
Qed.

Lemma lookup_deleteResources sessionId (m : gmap Key Resource) k r :
  deleteResources sessionId m !! k = Some r
  <-> m !! k = Some r
      /\ ~ (res_sessionId r = sessionId
            /\ cmp_le (str_compare (res_type r) sentinel) = true).
Proof.
  unfold deleteResources, index_bound. rewrite lookup_cursor_filter. simpl.
  rewrite <- in_bound_resources. by rewrite not_true_iff_false.
Qed.


(** ** Deleting a session *)

(** X1: what the cascade removes: the session, its settings, and every
    message, custom reply and anniversary filed under it; of its resources,
    those whose type the range of [deleteResources] reaches. *)
Lemma deleteSession_removes (sessionId : jsstring) (db : DB) :
  let db' := (deleteSession sessionId db).1 in
  (deleteSession sessionId db).2 = Resolved tt
  /\ sessions db' !! KStr sessionId = None
  /\ settings db' !! KStr sessionId = None
  /\ (forall k o, messages db' !! k = Some o ->
        msg_sessionId o <> Some (KStr sessionId))
  /\ (forall k r, customReplies db' !! k = Some r ->
        cr_sessionId r <> sessionId)
  /\ (forall k r, anniversaries db' !! k = Some r ->
        an_sessionId r <> sessionId)
  /\ (forall k r, resources db' !! k = Some r -> res_sessionId r = sessionId ->
        cmp_le (str_compare (res_type r) sentinel) = false).
Proof.
  cbn. repeat split.
  - apply lookup_delete_eq.
  - apply lookup_delete_eq.
  - intros k o H. by apply lookup_deleteFromStore in H as [_ H].
  - intros k r H. apply lookup_deleteFromStore in H as [_ H].
    unfold reply_sessionId in H. congruence.
  - intros k r H. apply lookup_deleteFromStore in H as [_ H].
    unfold ann_sessionId in H. congruence.
  - intros k r H Hs. apply lookup_deleteResources in H as [_ H].
    destruct (cmp_le _); [|done]. by destruct H.
Qed.

(** X2: what the cascade keeps: every record of another session. *)
Lemma deleteSession_keeps (sessionId : jsstring) (db : DB) :
  let db' := (deleteSession sessionId db).1 in
  (forall k, k <> KStr sessionId ->
     sessions db' !! k = sessions db !! k /\ settings db' !! k = settings db !! k)
  /\ (forall k o, messages db !! k = Some o ->
        msg_sessionId o <> Some (KStr sessionId) -> messages db' !! k = Some o)
  /\ (forall k r, customReplies db !! k = Some r ->
        cr_sessionId r <> sessionId -> customReplies db' !! k = Some r)
  /\ (forall k r, anniversaries db !! k = Some r ->
        an_sessionId r <> sessionId -> anniversaries db' !! k = Some r)
  /\ (forall k r, resources db !! k = Some r ->
        res_sessionId r <> sessionId -> resources db' !! k = Some r).
Proof.
  cbn. repeat split.
  - by apply lookup_delete_ne.
  - by apply lookup_delete_ne.
  - intros k o H Hs. by apply lookup_deleteFromStore.
  - intros k r H Hs. apply lookup_deleteFromStore. split; [done|].
    unfold reply_sessionId. congruence.
  - intros k r H Hs. apply lookup_deleteFromStore. split; [done|].
    unfold ann_sessionId. congruence.
  - intros k r H Hs. apply lookup_deleteResources. split; [done|].
    by intros [? _].
Qed.

(** A resource of the session whose type sorts above the sentinel is not
    visited by the cursor of [deleteResources] and stays in the store. *)
Lemma deleteSession_misses (sessionId : jsstring) (db : DB) k r :
  resources db !! k = Some r ->
  str_compare (res_type r) sentinel = Gt ->
  resources (deleteSession sessionId db).1 !! k = Some r.
Proof.
  intros Hk Hgt. cbn. apply lookup_deleteResources. split; [done|].
  rewrite Hgt. by intros [_ ?].
Qed.

(** C1: [deleteSession] resolves, the session row is gone, and the resource
    that [saveResource] stored for the session under a type above the
    sentinel of [deleteResources] is still in the store. *)
Theorem deleteSession_leaves_resource :
  let db' := (deleteSession (js "s1") orphan_db).1 in
  (deleteSession (js "s1") orphan_db).2 = Resolved tt
  /\ sessions orphan_db !! KStr (js "s1") <> None
  /\ sessions db' !! KStr (js "s1") = None
  /\ exists r,
       resources db' !! KStr (resource_id (js "s1") (sentinel ++ sentinel) (js "bg"))
       = Some r
       /\ res_sessionId r = js "s1".
Proof.
  cbn zeta. split; [reflexivity|]. split; [vm_compute; discriminate|].
  split; [vm_compute; reflexivity|].
  eexists. split; [vm_compute; reflexivity|reflexivity].
Qed.

(** ** Sessions *)

(** C5: [updateSession] on an identifier with no session row rejects with the
    not-found error and leaves the database as it was. *)
Theorem updateSession_missing (sessionId : jsstring) (updates : obj) (db : DB) :
  sessions db !! KStr sessionId = None ->
  updateSession sessionId updates db = (db, Rejected NotFoundError).
Proof. intros H. unfold updateSession. by rewrite H. Qed.

Lemma updateSession_missing_witness :
  sessions empty_db !! KStr (js "missing-id") = None
  /\ updateSession (js "missing-id") {["name" := VStr (js "x")]} empty_db
     = (empty_db, Rejected NotFoundError).
Proof.
  split; [reflexivity|].
  apply (updateSession_missing (js "missing-id")). reflexivity.
Defined.

(** ** Resources *)

Lemma res_wf_empty : res_wf empty_db.
Proof. intros k r H. cbn in H. by rewrite lookup_empty in H. Qed.

Lemma res_wf_saveResource sessionId type key data now db :
  res_wf db -> res_wf (saveResource sessionId type key data now db).1.
Proof.
  intros Hwf k r. cbn. rewrite lookup_insert_Some.
  intros [[<- <-]|[_ H]]; [done|by apply Hwf].
Qed.

Lemma res_wf_deleteResource sessionId type key db :
  res_wf db -> res_wf (deleteResource sessionId type key db).1.
Proof.
  intros Hwf k r. cbn. rewrite lookup_delete_Some.
  intros [_ H]. by apply Hwf.
Qed.

Lemma res_wf_deleteSession sessionId db :
  res_wf db -> res_wf (deleteSession sessionId db).1.
Proof.
  intros Hwf k r. cbn. intros [H _]%lookup_deleteResources. by apply Hwf.
Qed.

(** C3: two saves of one triple leave one row for the triple, and it holds
    the data of the second save. *)
Theorem saveResource_twice (sessionId type key : jsstring) (A B : value)
    (t1 t2 : Z) (db : DB) :
  res_wf db ->
  let db2 :=
    (saveResource sessionId type key B t2
       (saveResource sessionId type key A t1 db).1).1 in
  loadResource sessionId type key db2 = B
  /\ size (resources_of sessionId type key db2) = 1%nat
  /\ exists r,
       resources_of sessionId type key db2
       = {[ KStr (resource_id sessionId type key) := r ]}
       /\ res_data r = B.
Proof.
  intros Hwf. cbn zeta. unfold loadResource, resources_of. cbn.
  rewrite insert_insert_eq, lookup_insert_eq. split; [done|].
  set (id := KStr (resource_id sessionId type key)).
  set (item := {| res_id := resource_id sessionId type key;
                  res_sessionId := sessionId; res_type := type;
                  res_key := key; res_data := B; res_timestamp := t2 |}).
  assert (E : filter
                (fun kr : Key * Resource =>
                   res_sessionId kr.2 = sessionId /\ res_type kr.2 = type
                   /\ res_key kr.2 = key)
                (<[id := item]> (resources db))
              = {[ id := item ]}).
  { apply map_eq. intros k. apply option_eq. intros r.
    rewrite map_lookup_filter_Some, lookup_insert_Some, lookup_singleton_Some.
    cbn. split.
    - intros [[[<- <-]|[Hne H]] (Hs & Ht & Hk)]; [done|].
      apply Hwf in H. rewrite Hs, Ht, Hk in H. by destruct Hne.
    - intros [<- <-]. by split; [left|]. }
  rewrite E. split; [apply map_size_singleton|]. by exists item.
Qed.

Lemma saveResource_twice_witness :
  res_wf empty_db
  /\ loadResource (js "s1") (js "avatar") (js "main")
       (saveResource (js "s1") (js "avatar") (js "main") (VStr (js "blobB")) 2
          (saveResource (js "s1") (js "avatar") (js "main")
             (VStr (js "blobA")) 1 empty_db).1).1
     = VStr (js "blobB").
Proof.
  split; [exact res_wf_empty|].
  apply (saveResource_twice (js "s1") (js "avatar") (js "main")
           (VStr (js "blobA")) (VStr (js "blobB")) 1 2 empty_db).
  exact res_wf_empty.
Defined.

(** C9: two different triples whose parts contain underscores receive the
    same identifier, and saving the second replaces the row of the first. *)
Theorem resource_id_collision :
  exists s t k s' t' k' : jsstring,
    (s, t, k) <> (s', t', k')
    /\ underscore ∈ s /\ underscore ∈ t'
    /\ resource_id s t k = resource_id s' t' k'
    /\ forall (A B : value) (t1 t2 : Z) (db : DB),
         let db1 := (saveResource s t k A t1 db).1 in
         let db2 := (saveResource s' t' k' B t2 db1).1 in
         loadResource s t k db1 = A
         /\ loadResource s t k db2 = B
         /\ (forall r, resources db2 !! KStr (resource_id s t k) = Some r ->
               (res_sessionId r, res_type r, res_key r) = (s', t', k')).
Proof.
  exists (js "a_b"), (js "c"), (js "d"), (js "a"), (js "b_c"), (js "d").
  split; [discriminate|].
  split; [by vm_compute; repeat constructor|].
  split; [by vm_compute; repeat constructor|].
  split; [reflexivity|].
  intros A B t1 t2 db. cbn zeta. unfold loadResource.
  cbn [saveResource fst resources with_resources].
  change (resource_id (js "a") (js "b_c") (js "d"))
    with (resource_id (js "a_b") (js "c") (js "d")).
  rewrite insert_insert_eq, !lookup_insert_eq.
  repeat split. by intros r [= <-].
Qed.

(** ** Settings *)

(** [loadSettings] after [saveSettings] gives the new settings with the
    [sessionId]. *)
Lemma loadSettings_saveSettings (sessionId : jsstring) (new : obj) (db : DB) :
  new !! "sessionId"%string = None ->
  saveSettings sessionId new db
  = (with_settings
       (<[KStr sessionId := <["sessionId"%string := VStr sessionId]> new]>
          (settings db)) db,
     Resolved tt)
  /\ loadSettings sessionId (saveSettings sessionId new db).1
     = Some (<["sessionId"%string := VStr sessionId]> new).
Proof.
  intros Hnew. unfold saveSettings, spread, loadSettings.
  rewrite <- insert_union_singleton_r by done.
  unfold get. rewrite lookup_insert_eq. cbn.
  by rewrite lookup_insert_eq.
Qed.

(** C4, the claim does not hold: a field of the old row that the new settings
    omit is gone after [saveSettings]. *)
Lemma saveSettings_merge_counterexample :
  ~ (forall (sessionId : jsstring) (new old : obj) (db : DB) (f : string)
            (v : value),
       loadSettings sessionId db = Some old ->
       old !! f = Some v ->
       new !! f = None ->
       exists row,
         loadSettings sessionId (saveSettings sessionId new db).1 = Some row
         /\ row !! f = Some v).
Proof.
  intros H.
  destruct (H (js "s1")
              {["fontSize" := VNum 12]}
              (<["sessionId" := VStr (js "s1")]>
                 {["theme" := VStr (js "dark")]})
              (saveSettings (js "s1") {["theme" := VStr (js "dark")]}
                 empty_db).1
              "theme"%string (VStr (js "dark")))
    as (row & Hrow & Hf).
  - by apply loadSettings_saveSettings.
  - reflexivity.
  - reflexivity.
  - destruct (loadSettings_saveSettings (js "s1") {["fontSize" := VNum 12]}
                (saveSettings (js "s1") {["theme" := VStr (js "dark")]}
                   empty_db).1) as [_ E]; [reflexivity|].
    rewrite E in Hrow. assert (E' := Hrow). apply (inj Some) in E'.
    rewrite <- E' in Hf. discriminate Hf.
Qed.

(** C4, amended: [saveSettings] replaces the row; what [loadSettings] then
    returns is the new settings with the [sessionId], and it has no other
    field. *)
Theorem saveSettings_replaces (sessionId : jsstring) (new : obj) (db : DB) :
  new !! "sessionId"%string = None ->
  let db' := (saveSettings sessionId new db).1 in
  (saveSettings sessionId new db).2 = Resolved tt
  /\ loadSettings sessionId db'
     = Some (<["sessionId"%string := VStr sessionId]> new)
  /\ forall row f, loadSettings sessionId db' = Some row ->
       f <> "sessionId"%string -> row !! f = new !! f.
Proof.
  intros Hnew. cbn zeta.
  destruct (loadSettings_saveSettings sessionId new db Hnew) as [E1 E2].
  split; [by rewrite E1|]. split; [done|].
  rewrite E2. intros row f [= <-] Hf. by rewrite lookup_insert_ne.
Qed.

Lemma saveSettings_replaces_witness :
  loadSettings (js "s1")
    (saveSettings (js "s1") {["fontSize" := VNum 12]}
       (saveSettings (js "s1") {["theme" := VStr (js "dark")]} empty_db).1).1
  = Some (<["sessionId"%string := VStr (js "s1")]> {["fontSize" := VNum 12]}).
Proof.
  apply (saveSettings_replaces (js "s1") {["fontSize" := VNum 12]}).
  reflexivity.
Defined.


(** ** The connection *)

(** Once the stored version is the requested one, no upgrade runs. *)
Lemma upgrades_settled (trace : list event) (c : Conn) :
  (dbVersion <= version c)%nat ->
  upgrades (run c trace) = upgrades c.
Proof.
  revert c. induction trace as [|e trace IH]; intros c Hv; [done|].
  change (run c (e :: trace)) with (run (step c e) trace).
  destruct e; cbn [step].
  - by rewrite IH.
  - unfold ensure_open. destruct (this_db c); by rewrite IH.
  - unfold answer. destruct (requests c) as [|pending]; [by rewrite IH|].
    destruct (dbVersion <? version c)%nat eqn:E1; [by rewrite IH|].
    destruct (version c <? dbVersion)%nat eqn:E2.
    + apply Nat.ltb_lt in E2. lia.
    + by rewrite IH.
Qed.

Lemma upgrades_at_most_once (trace : list event) (c : Conn) :
  (upgrades (run c trace) <= S (upgrades c))%nat.
Proof.
  revert c. induction trace as [|e trace IH]; intros c; [cbn; lia|].
  change (run c (e :: trace)) with (run (step c e) trace).
  destruct e; cbn [step].
  - apply (IH (open c)).
  - unfold ensure_open. destruct (this_db c); [apply IH|apply (IH (open c))].
  - unfold answer. destruct (requests c) as [|pending]; [apply IH|].
    destruct (dbVersion <? version c)%nat eqn:E1;
      [apply (IH (Build_Conn _ _ _ _ _ _))|].
    rewrite upgrades_settled by (cbn; lia). cbn [upgrades].
    destruct (version c <? dbVersion)%nat; lia.
Qed.

(** C6, the claim does not hold: a second call of [open()] after the first
    was answered establishes a second connection. *)
Lemma open_twice_counterexample :
  ~ (forall trace : list event, (opened (run new_conn trace) <= 1)%nat).
Proof.
  intros H. specialize (H [CallOpen; Answer; CallOpen; Answer]).
  vm_compute in H. lia.
Qed.

(** C6, amended: [open()] issues a request at every call, whatever
    [this.db] holds; every request that the engine answers establishes a new
    connection and stores it in [this.db], unless the stored version is above
    the requested one, when the request fails and nothing changes but the
    request count; with a connection stored in [this.db] and no request in
    flight, accessor calls change nothing: no request, no connection, the
    same handle; and the upgrade runs at most once over any run. *)
Theorem open_cached_handle :
  (forall c : Conn,
     requests (open c) = S (requests c)
     /\ this_db (open c) = this_db c /\ opened (open c) = opened c)
  /\ (forall c : Conn,
        requests c <> 0%nat -> (version c <= dbVersion)%nat ->
        this_db (answer c) = Some (opened c)
        /\ opened (answer c) = S (opened c)
        /\ S (requests (answer c)) = requests c)
  /\ (forall c : Conn,
        requests c <> 0%nat -> (dbVersion < version c)%nat ->
        this_db (answer c) = this_db c
        /\ opened (answer c) = opened c
        /\ S (requests (answer c)) = requests c)
  /\ (forall (c : Conn) (trace : list event),
        this_db c <> None ->
        requests c = 0%nat ->
        Forall (fun e => e <> CallOpen) trace ->
        run c trace = c)
  /\ (forall (c : Conn) (trace : list event),
        (upgrades (run c trace) <= S (upgrades c))%nat).
Proof.
  split; [done|]. split; [|split; [|split]].
  - intros c Hreq Hv. unfold answer.
    destruct (requests c) as [|pending]; [done|].
    destruct (Nat.ltb_spec dbVersion (version c)); [lia|done].
  - intros c Hreq Hv. unfold answer.
    destruct (requests c) as [|pending]; [done|].
    destruct (Nat.ltb_spec dbVersion (version c)); [done|lia].
  - intros c trace Hdb Hreq Htrace.
    induction Htrace as [|e trace He _ IH]; [done|].
    change (run c (e :: trace)) with (run (step c e) trace).
    assert (step c e = c) as ->; [|done].
    destruct e; [done|..]; cbn.
    + unfold ensure_open. by destruct (this_db c).
    + unfold answer. by rewrite Hreq.
  - intros c trace. apply upgrades_at_most_once.
Qed.

Lemma open_cached_handle_witness :
  let c := run new_conn [CallAccessor; Answer] in
  this_db c = Some 0%nat
  /\ run c [CallAccessor; Answer; CallAccessor] = c
  /\ this_db (answer (open c)) = Some 1%nat.
Proof.
  cbn zeta. split; [reflexivity|]. split.
  - apply (proj1 (proj2 (proj2 (proj2 open_cached_handle)))
             (run new_conn [CallAccessor; Answer])
             [CallAccessor; Answer; CallAccessor]).
    + discriminate.
    + reflexivity.
    + repeat constructor; discriminate.
  - apply (proj1 (proj2 open_cached_handle)
             (open (run new_conn [CallAccessor; Answer]))).
    + discriminate.
    + vm_compute. lia.
Defined.

(** ** Sorting *)

Section Sort.
Context {A : Type} (cmp : A -> A -> Z).

Lemma sort_insert_perm x l : sort_insert cmp x l ≡ₚ x :: l.
Proof.
  induction l as [|y l IH]; simpl; [done|].
  destruct (cmp x y <=? 0); [done|].
  rewrite IH. apply Permutation_swap.
Qed.

Lemma js_sort_perm l : js_sort cmp l ≡ₚ l.
Proof.
  unfold js_sort. induction l as [|x l IH]; simpl; [done|].
  by rewrite sort_insert_perm, IH.
Qed.

(** A comparator that decides a total preorder, as [(a, b) => rank(a) -
    rank(b)] does. *)
Context (R : A -> A -> Prop).
Hypothesis R_trans : forall x y z, R x y -> R y z -> R x z.
Hypothesis cmp_le_R : forall x y, cmp x y <= 0 -> R x y.
Hypothesis cmp_gt_R : forall x y, 0 < cmp x y -> R y x.

Lemma sort_insert_sorted x l :
  StronglySorted R l -> StronglySorted R (sort_insert cmp x l).
Proof.
  induction 1 as [|y l Hl IH Hy]; simpl.
  - repeat constructor.
  - destruct (cmp x y <=? 0) eqn:E.
    + apply Z.leb_le, cmp_le_R in E.
      constructor; [by constructor|].
      constructor; [done|].
      eapply Forall_impl; [exact Hy|]. intros z Hz. by eapply R_trans.
    + apply Z.leb_gt, cmp_gt_R in E.
      constructor; [done|].
      rewrite sort_insert_perm. by constructor.
Qed.

Lemma js_sort_sorted l : StronglySorted R (js_sort cmp l).
Proof.
  unfold js_sort. induction l as [|x l IH]; simpl; [constructor|].
  by apply sort_insert_sorted.
Qed.
End Sort.

(** ** Custom replies *)

(** Every stored record of the session that is not disabled is among the
    records that [loadCustomReplies] keeps. *)
Lemma enabledReplies_complete (sessionId : jsstring) (db : DB) k r :
  customReplies db !! k = Some r ->
  cr_sessionId r = sessionId ->
  cr_enabled r = true ->
  r ∈ enabledReplies sessionId db.
Proof.
  intros Hk Hs Hen. unfold enabledReplies. rewrite js_sort_perm.
  apply list_elem_of_In, filter_In. split; [|by rewrite Hen].
  apply list_elem_of_In, list_elem_of_fmap. exists (k, r). split; [done|].
  apply elem_of_List_filter. split; [by apply elem_of_records|].
  apply bool_decide_eq_true. cbn. unfold reply_sessionId. by rewrite Hs.
Qed.

(** C8: every entry that [loadCustomReplies] returns comes from a stored
    record of the session whose [enabled] is not [false], and the entries
    are given by non-increasing stored [timestamp]. *)
Theorem loadCustomReplies_enabled_sorted (sessionId : jsstring) (db : DB) :
  loadCustomReplies sessionId db
  = (fun r => {| rv_text := cr_text r; rv_id := cr_id r |})
      <$> enabledReplies sessionId db
  /\ Forall (fun r => cr_enabled r <> false
                      /\ cr_sessionId r = sessionId
                      /\ exists k, customReplies db !! k = Some r)
            (enabledReplies sessionId db)
  /\ StronglySorted (fun a b => cr_timestamp b <= cr_timestamp a)
       (enabledReplies sessionId db).
Proof.
  split; [reflexivity|]. split.
  - apply Forall_forall. intros r Hr. unfold enabledReplies in Hr.
    rewrite js_sort_perm in Hr.
    apply list_elem_of_In, filter_In in Hr as [Hr Hen].
    apply list_elem_of_In, list_elem_of_fmap in Hr as ([k r'] & -> & Hr).
    unfold index_only in Hr.
    apply elem_of_List_filter in Hr as [Hr Hs]. cbn in *.
    apply bool_decide_eq_true in Hs. injection Hs as Hs.
    apply elem_of_records in Hr.
    split; [by destruct (cr_enabled r')|]. split; [done|by exists k].
  - unfold enabledReplies.
    apply js_sort_sorted; intros; lia.
Qed.

(** ** Generated identifiers *)

Lemma indexed_id_inj (sessionId tag : jsstring) (t t' i i' : Z) :
  sessionId ++ tag ++ dec t ++ js "_" ++ dec i
  = sessionId ++ tag ++ dec t' ++ js "_" ++ dec i' ->
  t = t' /\ i = i'.
Proof.
  intros H. do 2 apply app_inv_head in H.
  apply (split_at_first underscore) in H as [Ht Hi];
    try apply dec_no_underscore.
  split; by apply dec_inj.
Qed.

Lemma message_id_inj (sessionId : jsstring) (t t' : Z) (r r' : jsstring) :
  message_id sessionId t r = message_id sessionId t' r' -> t = t' /\ r = r'.
Proof.
  unfold message_id. intros H. do 2 apply app_inv_head in H.
  apply (split_at_first underscore) in H as [Ht Hr];
    try apply dec_no_underscore.
  split; [by apply dec_inj|done].
Qed.

Lemma lookup_reply_queue sessionId clock replies i :
  (reply_queue sessionId clock replies).*1 !! i
  = (fun x => KStr (cr_id (reply_item sessionId clock i x))) <$> replies !! i.
Proof.
  unfold reply_queue. rewrite list_lookup_fmap, list_lookup_imap.
  by destruct (replies !! i).
Qed.

Lemma NoDup_reply_queue sessionId clock replies :
  NoDup (reply_queue sessionId clock replies).*1.
Proof.
  apply NoDup_alt. intros i j k Hi Hj.
  rewrite lookup_reply_queue in Hi, Hj.
  destruct (replies !! i) as [a|]; [|done].
  destruct (replies !! j) as [b|]; [|done].
  cbv [fmap option_fmap option_map] in Hi, Hj.
  assert (cr_id (reply_item sessionId clock i a)
          = cr_id (reply_item sessionId clock j b)) as E by congruence.
  apply (indexed_id_inj sessionId (js "_reply_")) in E as [_ E]. lia.
Qed.

Lemma lookup_ann_queue sessionId clock anns i :
  (ann_queue sessionId clock anns).*1 !! i
  = (fun x => KStr (an_id (ann_item sessionId clock i x))) <$> anns !! i.
Proof.
  unfold ann_queue. rewrite list_lookup_fmap, list_lookup_imap.
  by destruct (anns !! i).
Qed.

Lemma NoDup_ann_queue sessionId clock anns :
  NoDup (ann_queue sessionId clock anns).*1.
Proof.
  apply NoDup_alt. intros i j k Hi Hj.
  rewrite lookup_ann_queue in Hi, Hj.
  destruct (anns !! i) as [a|]; [|done].
  destruct (anns !! j) as [b|]; [|done].
  cbv [fmap option_fmap option_map] in Hi, Hj.
  assert (an_id (ann_item sessionId clock i a)
          = an_id (ann_item sessionId clock j b)) as E by congruence.
  apply (indexed_id_inj sessionId (js "_ann_")) in E as [_ E]. lia.
Qed.

Lemma NoDup_generated_ids sessionId clock random n :
  (forall i j, (i < j < n)%nat -> (clock i, random i) <> (clock j, random j)) ->
  NoDup (generated_ids sessionId clock random n).
Proof.
  intros Hdraws. apply NoDup_alt. intros i j id Hi Hj.
  unfold generated_ids in *. rewrite list_lookup_fmap in Hi, Hj.
  destruct (seq 0 n !! i) as [a|] eqn:Ei; [|done].
  destruct (seq 0 n !! j) as [b|] eqn:Ej; [|done].
  apply lookup_seq in Ei as [-> Hi'], Ej as [-> Hj'].
  cbv [fmap option_fmap option_map] in Hi, Hj. cbn [Nat.add] in Hi, Hj.
  assert (message_id sessionId (clock i) (random i)
          = message_id sessionId (clock j) (random j)) as E by congruence.
  apply message_id_inj in E as [Ht Hr].
  destruct (Nat.lt_trichotomy i j) as [Hlt|[->|Hgt]]; [|done|].
  - destruct (Hdraws i j); [lia|congruence].
  - destruct (Hdraws j i); [lia|congruence].
Qed.

(** ** The loop of [saveMessages] *)

(** One round of the loop, unfolded. *)
Lemma forEach_message_cons sessionId clock random ref rest (h : heap) n :
  forEach_message sessionId clock random (ref :: rest) h n
  = let fm := fill_message sessionId (clock n) (random n) (h ref) in
    let h' := <[ref := fm.1]> h in
    let n' := if fm.2 then S n else n in
    match to_key (get fm.1 "id") with
    | None =>
        {| lp_heap := h'; lp_draws := n'; lp_queue := [];
           lp_thrown := Some DataError |}
    | Some k =>
        let r := forEach_message sessionId clock random rest h' n' in
        {| lp_heap := lp_heap r; lp_draws := lp_draws r;
           lp_queue := (k, fm.1) :: lp_queue r; lp_thrown := lp_thrown r |}
    end.
Proof. cbn [forEach_message]. by destruct (fill_message _ _ _ _). Qed.

(** Unfolds one round and splits on whether [store.add] throws. *)
Ltac loop_step :=
  rewrite forEach_message_cons; cbn zeta;
  match goal with
  | |- context [to_key (get (fill_message ?s ?t ?r ?o).1 "id")] =>
      destruct (to_key (get (fill_message s t r o).1 "id")) eqn:?
  end;
  cbn [lp_heap lp_draws lp_queue lp_thrown].

Section Loop.
Context (sessionId : jsstring) (clock : nat -> Z) (random : nat -> jsstring).

Lemma sid_final_idem v :
  sid_final sessionId (sid_final sessionId v) = sid_final sessionId v.
Proof.
  unfold sid_final. destruct (truthy v) eqn:E; [by rewrite E|].
  by destruct (truthy (VStr sessionId)).
Qed.

Lemma message_id_truthy now suffix :
  truthy (VStr (message_id sessionId now suffix)) = true.
Proof.
  unfold message_id. simpl. destruct sessionId; reflexivity.
Qed.

Lemma fill_message_other now suffix (o : obj) (f : string) :
  f <> "sessionId"%string -> f <> "id"%string ->
  (fill_message sessionId now suffix o).1 !! f = o !! f.
Proof.
  intros H1 H2. unfold fill_message.
  destruct (truthy (get o "sessionId")); destruct (truthy (get _ "id"));
    cbn [fst]; by rewrite ?lookup_insert_ne.
Qed.

Lemma fill_message_sessionId now suffix (o : obj) :
  get (fill_message sessionId now suffix o).1 "sessionId"
  = sid_final sessionId (get o "sessionId").
Proof.
  unfold fill_message, sid_final.
  destruct (truthy (get o "sessionId")); destruct (truthy (get _ "id"));
    cbn [fst]; unfold get;
    rewrite ?lookup_insert_ne by done; by rewrite ?lookup_insert_eq.
Qed.

Lemma fill_message_sessionId_kept now suffix (o : obj) :
  truthy (get o "sessionId") = true ->
  (fill_message sessionId now suffix o).1 !! "sessionId"%string
  = o !! "sessionId"%string.
Proof.
  intros H. unfold fill_message. rewrite H.
  destruct (truthy (get o "id")); cbn [fst]; by rewrite ?lookup_insert_ne.
Qed.

Lemma fill_message_id_kept now suffix (o : obj) :
  truthy (get o "id") = true ->
  (fill_message sessionId now suffix o).1 !! "id"%string = o !! "id"%string
  /\ (fill_message sessionId now suffix o).2 = false.
Proof.
  intros H. unfold fill_message.
  destruct (truthy (get o "sessionId")).
  - by rewrite H.
  - assert (get (<["sessionId"%string := VStr sessionId]> o) "id"
            = get o "id") as E
      by (unfold get; by rewrite lookup_insert_ne).
    rewrite E, H. cbn. by rewrite lookup_insert_ne.
Qed.

Lemma fill_message_id_drawn now suffix (o : obj) :
  truthy (get o "id") = false ->
  get (fill_message sessionId now suffix o).1 "id"
  = VStr (message_id sessionId now suffix)
  /\ (fill_message sessionId now suffix o).2 = true.
Proof.
  intros H. unfold fill_message.
  destruct (truthy (get o "sessionId")).
  - rewrite H. cbn. unfold get. by rewrite lookup_insert_eq.
  - assert (get (<["sessionId"%string := VStr sessionId]> o) "id"
            = get o "id") as E
      by (unfold get; by rewrite lookup_insert_ne).
    rewrite E, H. cbn. unfold get. by rewrite lookup_insert_eq.
Qed.





Lemma forEach_other msgs (h : heap) n ref (f : string) :
  f <> "sessionId"%string -> f <> "id"%string ->
  lp_heap (forEach_message sessionId clock random msgs h n) ref !! f
  = h ref !! f.
Proof.
  intros H1 H2. revert h n.
  induction msgs as [|ref0 rest IH]; intros h n; [done|].
  loop_step; rewrite ?IH;
    (destruct (decide (ref0 = ref)) as [->|Hne];
     [rewrite fn_lookup_insert; by apply fill_message_other
     |by rewrite fn_lookup_insert_ne]).
Qed.

Lemma forEach_untouched msgs (h : heap) n ref :
  ref ∉ msgs ->
  lp_heap (forEach_message sessionId clock random msgs h n) ref = h ref.
Proof.
  revert h n. induction msgs as [|ref0 rest IH]; intros h n Hout; [done|].
  apply not_elem_of_cons in Hout as [Hne Hout].
  loop_step; rewrite ?IH by done;
    by rewrite fn_lookup_insert_ne.
Qed.

Lemma forEach_sessionId_kept msgs (h : heap) n ref :
  truthy (get (h ref) "sessionId") = true ->
  lp_heap (forEach_message sessionId clock random msgs h n) ref
    !! "sessionId"%string
  = h ref !! "sessionId"%string.
Proof.
  revert h n. induction msgs as [|ref0 rest IH]; intros h n Ht; [done|].
  assert (E : (<[ref0 := (fill_message sessionId (clock n) (random n)
                            (h ref0)).1]> h) ref !! "sessionId"%string
              = h ref !! "sessionId"%string).
  { destruct (decide (ref0 = ref)) as [->|Hne].
    - rewrite fn_lookup_insert. by apply fill_message_sessionId_kept.
    - by rewrite fn_lookup_insert_ne. }
  loop_step; [|done].
  rewrite IH; [done|]. unfold get in *. by rewrite E.
Qed.

Lemma forEach_id_kept msgs (h : heap) n ref :
  truthy (get (h ref) "id") = true ->
  lp_heap (forEach_message sessionId clock random msgs h n) ref !! "id"%string
  = h ref !! "id"%string.
Proof.
  revert h n. induction msgs as [|ref0 rest IH]; intros h n Ht; [done|].
  assert (E : (<[ref0 := (fill_message sessionId (clock n) (random n)
                            (h ref0)).1]> h) ref !! "id"%string
              = h ref !! "id"%string).
  { destruct (decide (ref0 = ref)) as [->|Hne].
    - rewrite fn_lookup_insert. by apply fill_message_id_kept.
    - by rewrite fn_lookup_insert_ne. }
  loop_step; [|done].
  rewrite IH; [done|]. unfold get in *. by rewrite E.
Qed.

Lemma forEach_draws_mono msgs (h : heap) n :
  (n <= lp_draws (forEach_message sessionId clock random msgs h n))%nat.
Proof.
  revert h n. induction msgs as [|ref0 rest IH]; intros h n; [done|].
  loop_step.
  - match goal with
    | |- context [forEach_message _ _ _ _ ?h' ?n'] =>
        pose proof (IH h' n') as Hle
    end.
    destruct (fill_message sessionId (clock n) (random n) (h ref0)).2; lia.
  - destruct (fill_message sessionId (clock n) (random n) (h ref0)).2; lia.
Qed.

(** The loop is cut short by [DataError] only. *)
Lemma forEach_thrown msgs (h : heap) n :
  lp_thrown (forEach_message sessionId clock random msgs h n) = None
  \/ lp_thrown (forEach_message sessionId clock random msgs h n)
     = Some DataError.
Proof.
  revert h n. induction msgs as [|ref0 rest IH]; intros h n; [by left|].
  loop_step; [apply IH|by right].
Qed.

Lemma forEach_sessionId_filled msgs (h : heap) n ref :
  lp_thrown (forEach_message sessionId clock random msgs h n) = None ->
  ref ∈ msgs ->
  get (lp_heap (forEach_message sessionId clock random msgs h n) ref)
      "sessionId"
  = sid_final sessionId (get (h ref) "sessionId").
Proof.
  revert h n. induction msgs as [|ref0 rest IH]; intros h n Hthrown Hin.
  { by apply elem_of_nil in Hin. }
  revert Hthrown. loop_step; [|done]. intros Hthrown.
  set (h' := <[ref0 := _]> h) in *.
  assert (Hh' : get (h' ref) "sessionId"
                = if decide (ref0 = ref)
                  then sid_final sessionId (get (h ref) "sessionId")
                  else get (h ref) "sessionId").
  { unfold h'. destruct (decide (ref0 = ref)) as [->|Hne].
    - rewrite fn_lookup_insert. apply fill_message_sessionId.
    - by rewrite fn_lookup_insert_ne. }
  destruct (decide (ref ∈ rest)) as [Hrest|Hrest].
  - rewrite IH, Hh' by done.
    destruct (decide (ref0 = ref)); [apply sid_final_idem|done].
  - rewrite forEach_untouched, Hh' by done.
    apply elem_of_cons in Hin as [->|?]; [|done].
    by rewrite decide_True.
Qed.

Lemma forEach_id_filled msgs (h : heap) n ref :
  lp_thrown (forEach_message sessionId clock random msgs h n) = None ->
  ref ∈ msgs ->
  truthy (get (h ref) "id") = false ->
  exists i,
    (n <= i < lp_draws (forEach_message sessionId clock random msgs h n))%nat
    /\ get (lp_heap (forEach_message sessionId clock random msgs h n) ref)
           "id"
       = VStr (message_id sessionId (clock i) (random i)).
Proof.
  revert h n. induction msgs as [|ref0 rest IH]; intros h n Hthrown Hin Hid.
  { by apply elem_of_nil in Hin. }
  revert Hthrown. loop_step; [|done]. intros Hthrown.
  set (h' := <[ref0 := _]> h) in *.
  destruct (decide (ref0 = ref)) as [->|Hne].
  - destruct (fill_message_id_drawn (clock n) (random n) (h ref) Hid)
      as [Hget Hdrawn].
    rewrite Hdrawn in *.
    exists n. split.
    + pose proof (forEach_draws_mono rest h' (S n)). lia.
    + unfold get. rewrite forEach_id_kept.
      * unfold h'. rewrite fn_lookup_insert. exact Hget.
      * unfold h'. rewrite fn_lookup_insert, Hget.
        apply message_id_truthy.
  - apply elem_of_cons in Hin as [->|Hin]; [done|].
    destruct (IH h' (if (fill_message sessionId (clock n) (random n)
                           (h ref0)).2 then S n else n) Hthrown Hin)
      as (i & Hi & Hget).
    + unfold h'. by rewrite fn_lookup_insert_ne.
    + exists i. split; [|done].
      destruct (fill_message sessionId (clock n) (random n) (h ref0)).2; lia.
Qed.
End Loop.

(** ** Saving messages *)

Lemma saveMessages_heap sessionId msgs clock random (h : heap) db :
  (saveMessages sessionId msgs clock random h db).1.1
  = lp_heap (forEach_message sessionId clock random msgs h 0).
Proof.
  unfold saveMessages.
  by destruct (add_all _ _), (lp_thrown _).
Qed.

Lemma saveMessages_thrown sessionId msgs clock random (h : heap) db :
  (saveMessages sessionId msgs clock random h db).2 <> Rejected DataError ->
  lp_thrown (forEach_message sessionId clock random msgs h 0) = None.
Proof.
  unfold saveMessages.
  destruct (forEach_thrown sessionId clock random msgs h 0) as [E | E];
    rewrite E; [done|].
  by destruct (add_all _ _).
Qed.

(** C10, the claim does not hold: an [id] that is present but falsy is
    overwritten. *)
Lemma saveMessages_present_field_counterexample :
  ~ (forall (sessionId : jsstring) (msgs : list nat) (clock : nat -> Z)
            (random : nat -> jsstring) (h : heap) (db : DB) (ref : nat)
            (f : string),
       ref ∈ msgs ->
       is_Some (h ref !! f) ->
       (saveMessages sessionId msgs clock random h db).1.1 ref !! f
       = h ref !! f).
Proof.
  intros H.
  specialize (H (js "s1") [0%nat] (fun _ => 7) (fun _ => js "abc")
                (fun _ => {["id" := VNum 0; "text" := VStr (js "hi")]})
                empty_db 0%nat "id"%string).
  assert (Hin : 0%nat ∈ [0%nat]) by left.
  specialize (H Hin). cbv beta in H.
  assert (E : is_Some (({["id" := VNum 0; "text" := VStr (js "hi")]} : obj)
                         !! "id"%string)) by (by eexists).
  specialize (H E). by vm_compute in H.
Qed.

(** C10, amended: [saveMessages] writes on the caller's objects.  Unless the
    loop is cut short by a message whose [id] is no valid key, every listed
    message whose [sessionId] is missing or falsy receives the session's, and
    every one whose [id] is missing or falsy receives a generated one; a
    truthy [sessionId] or [id], every other field and every object that is
    not listed stay as they were. *)
Theorem saveMessages_fills (sessionId : jsstring) (msgs : list nat)
    (clock : nat -> Z) (random : nat -> jsstring) (h : heap) (db : DB)
    (ref : nat) :
  let h' := (saveMessages sessionId msgs clock random h db).1.1 in
  (saveMessages sessionId msgs clock random h db).2 <> Rejected DataError ->
  ref ∈ msgs ->
  get (h' ref) "sessionId"
  = (if truthy (get (h ref) "sessionId") then get (h ref) "sessionId"
     else VStr sessionId)
  /\ (if truthy (get (h ref) "id")
      then h' ref !! "id"%string = h ref !! "id"%string
      else exists i,
             (i < lp_draws (forEach_message sessionId clock random msgs h 0))%nat
             /\ get (h' ref) "id"
                = VStr (message_id sessionId (clock i) (random i)))
  /\ (truthy (get (h ref) "sessionId") = true ->
      h' ref !! "sessionId"%string = h ref !! "sessionId"%string)
  /\ (forall f : string, f <> "sessionId"%string -> f <> "id"%string ->
        h' ref !! f = h ref !! f)
  /\ (forall ref' : nat, ref' ∉ msgs -> h' ref' = h ref').
Proof.
  intros h' Hout Hin. unfold h'. rewrite saveMessages_heap.
  apply saveMessages_thrown in Hout. repeat split.
  - by apply forEach_sessionId_filled.
  - destruct (truthy (get (h ref) "id")) eqn:Hid.
    + by apply forEach_id_kept.
    + destruct (forEach_id_filled sessionId clock random msgs h 0 ref)
        as (i & Hi & Hget); try done.
      exists i. split; [lia|done].
  - apply forEach_sessionId_kept.
  - intros f H1 H2. by apply forEach_other.
  - intros ref' Hout'. by apply forEach_untouched.
Qed.

Lemma saveMessages_fills_witness :
  let h : heap := fun _ => {["text" := VStr (js "hi")]} in
  let h' := (saveMessages (js "s1") [0%nat] (fun _ => 7) (fun _ => js "abc")
               h empty_db).1.1 in
  get (h' 0%nat) "sessionId" = VStr (js "s1")
  /\ get (h' 0%nat) "id" = VStr (js "s1_msg_7_abc")
  /\ h' 0%nat !! "text"%string = Some (VStr (js "hi")).
Proof.
  cbn zeta.
  destruct (saveMessages_fills (js "s1") [0%nat] (fun _ => 7)
              (fun _ => js "abc") (fun _ => {["text" := VStr (js "hi")]})
              empty_db 0%nat) as (Hs & _ & _ & Hf & _).
  - by vm_compute.
  - left.
  - split; [exact Hs|]. split; [by vm_compute|].
    by rewrite Hf.
Defined.

(** [addMessage] makes the same two assignments on the caller's object. *)
Lemma addMessage_fills (sessionId : jsstring) (ref : nat) (now : Z)
    (suffix : jsstring) (h : heap) (db : DB) :
  let h' := (addMessage sessionId ref now suffix h db).1.1 in
  h' ref = (fill_message sessionId now suffix (h ref)).1
  /\ forall ref', ref' <> ref -> h' ref' = h ref'.
Proof.
  unfold addMessage. destruct (fill_message _ _ _ _) as [msg drawn].
  destruct (to_key _); [destruct (store_add _ _ _)|]; cbn;
    (split; [apply fn_lookup_insert|]);
    intros ref' Hne; by apply fn_lookup_insert_ne.
Qed.

Lemma NoDup_List_filter {A : Type} (f : A -> bool) (l : list A) :
  NoDup l -> NoDup (List.filter f l).
Proof.
  induction 1 as [|x l Hx Hl IH]; simpl; [constructor|].
  destruct (f x); [|done]. constructor; [|done].
  rewrite list_elem_of_In, filter_In, <- list_elem_of_In. by intros [? _].
Qed.

(** A queue of adds that runs through: its keys are pairwise distinct and
    free, and the store gains exactly the queued records. *)
Lemma add_all_Ok {A : Type} (q : list (Key * A)) (m m' : gmap Key A) :
  add_all q m = Ok m' ->
  NoDup q.*1
  /\ (forall k, k ∈ q.*1 -> m !! k = None)
  /\ (forall k r, m' !! k = Some r <-> (k, r) ∈ q \/ m !! k = Some r).
Proof.
  revert m. induction q as [|[k0 r0] q IH]; intros m; cbn [add_all].
  - intros [= <-]. split; [constructor|]. split.
    + intros k Hk. by apply elem_of_nil in Hk.
    + intros k r. split; [by right|]. intros [Hk|?]; [|done].
      by apply elem_of_nil in Hk.
  - unfold store_add. destruct (m !! k0) eqn:Hk0; [done|]. cbn [bind].
    intros H. apply IH in H as (Hnd & Hfree & Hm').
    assert (Hk0' : k0 ∉ q.*1).
    { intros Hin. apply Hfree in Hin. by rewrite lookup_insert_eq in Hin. }
    rewrite fmap_cons. cbn [fst]. split; [by constructor|]. split.
    + intros k [->|Hin]%elem_of_cons; [done|].
      apply Hfree in Hin. apply lookup_insert_None in Hin. tauto.
    + intros k r. rewrite Hm', lookup_insert_Some, elem_of_cons. split.
      * intros [?|[[<- <-]|[_ ?]]]; auto.
      * intros [[[= -> ->]|?]|?]; auto.
        right; right. split; [|done]. congruence.
Qed.

Section Queue.
Context (sessionId : jsstring) (clock : nat -> Z) (random : nat -> jsstring).

Lemma forEach_queue_length msgs (h : heap) n :
  lp_thrown (forEach_message sessionId clock random msgs h n) = None ->
  length (lp_queue (forEach_message sessionId clock random msgs h n))
  = length msgs.
Proof.
  revert h n. induction msgs as [|ref0 rest IH]; intros h n; [done|].
  loop_step; [|done]. intros H. cbn [length]. by rewrite IH.
Qed.

(** The record queued for a message is filed under its [id]. *)
Lemma forEach_queue_key msgs (h : heap) n k o :
  (k, o) ∈ lp_queue (forEach_message sessionId clock random msgs h n) ->
  to_key (get o "id") = Some k.
Proof.
  revert h n. induction msgs as [|ref0 rest IH]; intros h n.
  { intros H. by apply elem_of_nil in H. }
  loop_step.
  - intros [[= -> ->]|H]%elem_of_cons; [done|by eapply IH].
  - intros H. by apply elem_of_nil in H.
Qed.

(** When no listed message carries the [sessionId] of another session,
    every queued record is filed under the session. *)
Lemma forEach_queue_session msgs (h : heap) n k o :
  (forall ref, ref ∈ msgs ->
     sid_final sessionId (get (h ref) "sessionId") = VStr sessionId) ->
  (k, o) ∈ lp_queue (forEach_message sessionId clock random msgs h n) ->
  msg_sessionId o = Some (KStr sessionId).
Proof.
  revert h n. induction msgs as [|ref0 rest IH]; intros h n Hall.
  { intros H. by apply elem_of_nil in H. }
  loop_step.
  - intros [[= -> ->]|H]%elem_of_cons.
    + unfold msg_sessionId. rewrite fill_message_sessionId, Hall; [done|left].
    + eapply IH; [|exact H]. intros ref Hin.
      destruct (decide (ref0 = ref)) as [->|Hne].
      * rewrite fn_lookup_insert, fill_message_sessionId, sid_final_idem.
        apply Hall. left.
      * rewrite fn_lookup_insert_ne by done. apply Hall. by right.
  - intros H. by apply elem_of_nil in H.
Qed.
End Queue.

(** ** The identifiers of the rows *)

Section Rows.
Context (sessionId : jsstring) (clock : nat -> Z) (random : nat -> jsstring).

(** The add request issued for a message that reaches its round with an
    [id] is filed under that [id]. *)
Lemma forEach_row_id_kept msgs (h : heap) n i ref k o :
  msgs !! i = Some ref ->
  lp_queue (forEach_message sessionId clock random msgs h n) !! i
  = Some (k, o) ->
  truthy (get (h ref) "id") = true ->
  to_key (get (h ref) "id") = Some k.
Proof.
  revert h n i. induction msgs as [|ref0 rest IH]; intros h n i; [done|].
  loop_step; [|done].
  destruct i as [|i]; cbn [lookup list_lookup].
  - intros [= ->] [= <- <-] Ht.
    destruct (fill_message_id_kept sessionId (clock n) (random n) (h ref) Ht)
      as [E _].
    unfold get in *. by rewrite <- E.
  - intros Hi Hq Ht.
    assert (E : (<[ref0 := (fill_message sessionId (clock n) (random n)
                              (h ref0)).1]> h) ref !! "id"%string
                = h ref !! "id"%string).
    { destruct (decide (ref0 = ref)) as [->|Hne].
      - rewrite fn_lookup_insert. by apply fill_message_id_kept.
      - by rewrite fn_lookup_insert_ne. }
    unfold get in *. rewrite <- E. eapply IH; [exact Hi|exact Hq|].
    by rewrite E.
Qed.

(** The add request issued for a message that starts without an [id] is
    filed under the identifier of one draw of the loop. *)
Lemma forEach_row_id_drawn msgs (h : heap) n i ref k o :
  msgs !! i = Some ref ->
  lp_queue (forEach_message sessionId clock random msgs h n) !! i
  = Some (k, o) ->
  truthy (get (h ref) "id") = false ->
  exists d,
    (n <= d < lp_draws (forEach_message sessionId clock random msgs h n))%nat
    /\ k = KStr (message_id sessionId (clock d) (random d)).
Proof.
  revert h n i. induction msgs as [|ref0 rest IH]; intros h n i; [done|].
  loop_step; [|done].
  set (h' := <[ref0 := _]> h) in *.
  destruct i as [|i]; cbn [lookup list_lookup].
  - intros [= ->] [= <- <-] Hf.
    destruct (fill_message_id_drawn sessionId (clock n) (random n) (h ref) Hf)
      as [Hget Hdrawn].
    rewrite Hdrawn in *. exists n. split.
    + pose proof (forEach_draws_mono sessionId clock random rest h' (S n)).
      lia.
    + rewrite Hget in *. cbn [to_key] in *. congruence.
  - intros Hi Hq Hf.
    destruct (decide (ref0 = ref)) as [->|Hne].
    + destruct (fill_message_id_drawn sessionId (clock n) (random n) (h ref)
                  Hf) as [Hget Hdrawn].
      rewrite Hdrawn in *. exists n. split.
      * pose proof (forEach_draws_mono sessionId clock random rest h' (S n)).
        lia.
      * assert (Hh' : get (h' ref) "id"
                      = VStr (message_id sessionId (clock n) (random n))).
        { unfold h'. by rewrite fn_lookup_insert. }
        pose proof (forEach_row_id_kept rest h' (S n) i ref k o Hi Hq) as Hk.
        rewrite Hh' in Hk. cbn [to_key] in Hk.
        specialize (Hk (message_id_truthy sessionId _ _)). congruence.
    + destruct (IH h' _ i Hi Hq) as (d & Hd & Hk).
      * unfold h'. by rewrite fn_lookup_insert_ne.
      * exists d. split; [|done].
        destruct (fill_message sessionId (clock n) (random n) (h ref0)).2;
          lia.
Qed.

(** A message that heads the list without an [id] is filed under the
    identifier of the first draw wherever it is listed. *)
Lemma forEach_row_head rest (h : heap) n i ref0 k o :
  truthy (get (h ref0) "id") = false ->
  (ref0 :: rest) !! i = Some ref0 ->
  lp_queue (forEach_message sessionId clock random (ref0 :: rest) h n) !! i
  = Some (k, o) ->
  k = KStr (message_id sessionId (clock n) (random n))
  /\ (n < lp_draws (forEach_message sessionId clock random (ref0 :: rest) h n))%nat.
Proof.
  intros Hf.
  destruct (fill_message_id_drawn sessionId (clock n) (random n) (h ref0) Hf)
    as [Hget Hdrawn].
  loop_step; [|done]. rewrite Hdrawn.
  set (h' := <[ref0 := _]> h) in *.
  pose proof (forEach_draws_mono sessionId clock random rest h' (S n)).
  intros Hi Hq. split; [|lia].
  destruct i as [|i]; cbn [lookup list_lookup] in Hi, Hq.
  - rewrite Hget in *. cbn [to_key] in *. congruence.
  - assert (Hh' : get (h' ref0) "id"
                  = VStr (message_id sessionId (clock n) (random n))).
    { unfold h'. by rewrite fn_lookup_insert. }
    pose proof (forEach_row_id_kept rest h' (S n) i ref0 k o Hi Hq) as Hk.
    rewrite Hh' in Hk. cbn [to_key] in Hk.
    specialize (Hk (message_id_truthy sessionId _ _)). congruence.
Qed.

(** Behind a head that takes the first draw, another message without an
    [id] is filed under the identifier of a later draw. *)
Lemma forEach_row_tail rest (h : heap) n i ref0 ref k o :
  truthy (get (h ref0) "id") = false ->
  ref <> ref0 ->
  truthy (get (h ref) "id") = false ->
  (ref0 :: rest) !! i = Some ref ->
  lp_queue (forEach_message sessionId clock random (ref0 :: rest) h n) !! i
  = Some (k, o) ->
  exists d,
    (S n <= d < lp_draws (forEach_message sessionId clock random
                            (ref0 :: rest) h n))%nat
    /\ k = KStr (message_id sessionId (clock d) (random d)).
Proof.
  intros Hf0 Hne Hf.
  destruct (fill_message_id_drawn sessionId (clock n) (random n) (h ref0) Hf0)
    as [_ Hdrawn].
  loop_step; [|done]. rewrite Hdrawn.
  destruct i as [|i]; cbn [lookup list_lookup]; [congruence|].
  intros Hi Hq. eapply forEach_row_id_drawn; [exact Hi|exact Hq|].
  by rewrite fn_lookup_insert_ne.
Qed.

(** Two different messages that start without an [id] are filed under the
    identifiers of two different draws. *)
Lemma forEach_rows_draws msgs (h : heap) n i j ri rj ki oi kj oj :
  msgs !! i = Some ri -> msgs !! j = Some rj -> ri <> rj ->
  truthy (get (h ri) "id") = false -> truthy (get (h rj) "id") = false ->
  lp_queue (forEach_message sessionId clock random msgs h n) !! i
  = Some (ki, oi) ->
  lp_queue (forEach_message sessionId clock random msgs h n) !! j
  = Some (kj, oj) ->
  exists di dj,
    di <> dj
    /\ (n <= di < lp_draws (forEach_message sessionId clock random msgs h n))%nat
    /\ (n <= dj < lp_draws (forEach_message sessionId clock random msgs h n))%nat
    /\ ki = KStr (message_id sessionId (clock di) (random di))
    /\ kj = KStr (message_id sessionId (clock dj) (random dj)).
Proof.
  revert h n i j. induction msgs as [|ref0 rest IH]; intros h n i j; [done|].
  intros Hi Hj Hne Hfi Hfj Hqi Hqj.
  destruct (decide (ref0 = ri)) as [->|Hri]; [|destruct (decide (ref0 = rj)) as [->|Hrj]].
  - destruct (forEach_row_head rest h n i ri ki oi) as [Hki Hn]; try done.
    destruct (forEach_row_tail rest h n j ri rj kj oj) as (dj & Hdj & Hkj);
      try done.
    exists n, dj. repeat split; try done; lia.
  - destruct (forEach_row_head rest h n j rj kj oj) as [Hkj Hn]; try done.
    destruct (forEach_row_tail rest h n i rj ri ki oi) as (di & Hdi & Hki);
      try done.
    exists di, n. repeat split; try done; lia.
  - destruct i as [|i]; [cbn in Hi; congruence|].
    destruct j as [|j]; [cbn in Hj; congruence|].
    cbn [lookup list_lookup] in Hi, Hj.
    revert Hqi Hqj. loop_step; [|done].
    cbn [lookup list_lookup]. intros Hqi Hqj.
    match goal with
    | _ : lp_queue (forEach_message _ _ _ _ ?h' ?n') !! _ = _ |- _ =>
        destruct (IH h' n' i j Hi Hj Hne) as (di & dj & Hd & Hdi & Hdj & Hk);
          rewrite ?fn_lookup_insert_ne by done; try done
    end.
    exists di, dj. split; [done|].
    destruct (fill_message sessionId (clock n) (random n) (h ref0)).2;
      (split; [lia|]); (split; [lia|done]).
Qed.
End Rows.

(** C7, the claim does not hold for [saveMessages]: two messages saved in one
    millisecond with the same random suffix are filed under the same
    identifier. *)
Lemma generated_ids_counterexample :
  ~ (forall (sessionId : jsstring) (clock : nat -> Z) (random : nat -> jsstring)
            (msgs : list nat) (h : heap) i j ri rj ki oi kj oj,
       msgs !! i = Some ri -> msgs !! j = Some rj -> ri <> rj ->
       truthy (get (h ri) "id") = false -> truthy (get (h rj) "id") = false ->
       lp_queue (forEach_message sessionId clock random msgs h 0) !! i
       = Some (ki, oi) ->
       lp_queue (forEach_message sessionId clock random msgs h 0) !! j
       = Some (kj, oj) ->
       ki <> kj).
Proof.
  intros H.
  set (o := <["id" := VStr (js "s1_msg_1700000000000_k3x9q")]>
              (<["sessionId" := VStr (js "s1")]>
                 ({["text" := VStr (js "hi")]} : obj))).
  apply (H (js "s1") (fun _ => 1700000000000) (fun _ => js "k3x9q")
           [0; 1]%nat (fun _ => {["text" := VStr (js "hi")]})
           0%nat 1%nat 0%nat 1%nat
           (KStr (js "s1_msg_1700000000000_k3x9q")) o
           (KStr (js "s1_msg_1700000000000_k3x9q")) o);
    try reflexivity. lia.
Qed.

(** C7, amended: the identifiers of one [saveCustomReplies] and of one
    [saveAnniversaries] are pairwise distinct whatever the clock reads; in one
    [saveMessages], the add requests issued for two different messages that
    came without an [id] are filed under different identifiers when no two
    draws of the loop gave the same clock reading and the same random
    suffix, and a loop that runs to its end issues one request for each
    listed message. *)
Theorem generated_ids_distinct (sessionId : jsstring) (clock : nat -> Z)
    (random : nat -> jsstring) (msgs : list nat) (h : heap) :
  let lp := forEach_message sessionId clock random msgs h 0 in
  (forall i j, (i < j < lp_draws lp)%nat ->
     (clock i, random i) <> (clock j, random j)) ->
  (forall i j ri rj ki oi kj oj,
     msgs !! i = Some ri -> msgs !! j = Some rj -> ri <> rj ->
     truthy (get (h ri) "id") = false -> truthy (get (h rj) "id") = false ->
     lp_queue lp !! i = Some (ki, oi) -> lp_queue lp !! j = Some (kj, oj) ->
     ki <> kj)
  /\ (lp_thrown lp = None -> length (lp_queue lp) = length msgs)
  /\ NoDup (generated_ids sessionId clock random (lp_draws lp))
  /\ (forall replies : list obj,
        NoDup (reply_queue sessionId clock replies).*1)
  /\ (forall anns : list obj, NoDup (ann_queue sessionId clock anns).*1).
Proof.
  intros lp Hdraws.
  split; [|split; [apply forEach_queue_length
                  |split; [by apply NoDup_generated_ids|]]].
  - intros i j ri rj ki oi kj oj Hi Hj Hne Hfi Hfj Hqi Hqj.
    destruct (forEach_rows_draws sessionId clock random msgs h 0 i j ri rj
                ki oi kj oj) as (di & dj & Hd & Hdi & Hdj & -> & ->);
      try done.
    intros E.
    assert (message_id sessionId (clock di) (random di)
            = message_id sessionId (clock dj) (random dj)) as E'
      by congruence.
    apply message_id_inj in E' as [Ht Hr].
    destruct (Nat.lt_trichotomy di dj) as [Hlt|[->|Hgt]]; [|done|].
    + destruct (Hdraws di dj); [fold lp in Hdj; lia|congruence].
    + destruct (Hdraws dj di); [fold lp in Hdi; lia|congruence].
  - split; intros; [apply NoDup_reply_queue|apply NoDup_ann_queue].
Qed.

Lemma generated_ids_distinct_witness :
  let h : heap := fun _ => {["text" := VStr (js "hi")]} in
  let lp := forEach_message (js "s1") (fun _ => 1700000000000)
              (fun i => dec (Z.of_nat i)) [0; 1]%nat h 0 in
  (lp_queue lp).*1 = [KStr (js "s1_msg_1700000000000_0");
                      KStr (js "s1_msg_1700000000000_1")]
  /\ KStr (js "s1_msg_1700000000000_0") <> KStr (js "s1_msg_1700000000000_1").
Proof.
  cbn zeta. split; [reflexivity|].
  set (o0 := <["id" := VStr (js "s1_msg_1700000000000_0")]>
               (<["sessionId" := VStr (js "s1")]>
                  ({["text" := VStr (js "hi")]} : obj))).
  set (o1 := <["id" := VStr (js "s1_msg_1700000000000_1")]>
               (<["sessionId" := VStr (js "s1")]>
                  ({["text" := VStr (js "hi")]} : obj))).
  refine (proj1 (generated_ids_distinct (js "s1") (fun _ => 1700000000000)
                   (fun i => dec (Z.of_nat i)) [0; 1]%nat
                   (fun _ => {["text" := VStr (js "hi")]}) _)
            0%nat 1%nat 0%nat 1%nat _ o0 _ o1 _ _ _ _ _ _ _);
    try reflexivity; [|lia].
  intros i j Hij. change (lp_draws _) with 2%nat in Hij.
  assert (i = 0%nat /\ j = 1%nat) as [-> ->] by lia. vm_compute. discriminate.
Defined.

Lemma saveMessages_Resolved sessionId msgs clock random (h h' : heap) db db' :
  saveMessages sessionId msgs clock random h db = (h', db', Resolved tt) ->
  lp_thrown (forEach_message sessionId clock random msgs h 0) = None
  /\ exists store',
       add_all (lp_queue (forEach_message sessionId clock random msgs h 0))
         (deleteFromStore msg_sessionId sessionId (messages db))
       = Ok store'
       /\ db' = with_messages store' db.
Proof.
  unfold saveMessages.
  destruct (add_all _ _) as [store'|e] eqn:E, (lp_thrown _); try done.
  intros [= _ <-]. split; [done|]. by exists store'.
Qed.

(** A transaction of [saveMessages] that is aborted leaves the database as
    it was: the deletions are undone with the adds. *)
Lemma saveMessages_aborted sessionId msgs clock random (h h' : heap) db db' :
  saveMessages sessionId msgs clock random h db
  = (h', db', Rejected TransactionError) ->
  db' = db.
Proof.
  unfold saveMessages.
  destruct (forEach_thrown sessionId clock random msgs h 0) as [E | E];
    rewrite E; destruct (add_all _ _); by intros [= _ <-].
Qed.

(** C2, the claim does not hold: a message of the batch that carries the
    [sessionId] of another session is not stored for the session. *)
Lemma saveMessages_count_counterexample :
  ~ (forall (sessionId : jsstring) (msgs : list nat) (clock : nat -> Z)
            (random : nat -> jsstring) (h h' : heap) (db db' : DB),
       saveMessages sessionId msgs clock random h db = (h', db', Resolved tt) ->
       length (messages_of sessionId db') = length msgs).
Proof.
  intros H.
  set (h := fun _ : nat =>
              ({["sessionId" := VStr (js "s2"); "text" := VStr (js "hi")]}
               : obj)).
  destruct (saveMessages (js "s1") [0%nat] (fun _ => 7) (fun _ => js "abc")
              h empty_db) as [[h' db'] out] eqn:E.
  assert (out = Resolved tt) as ->.
  { by apply (f_equal snd) in E; vm_compute in E. }
  apply H in E as Hlen.
  apply (f_equal (fun x => messages x.1.2)) in E. cbn in E.
  unfold messages_of in Hlen. rewrite <- E in Hlen. by vm_compute in Hlen.
Qed.

(** When [saveMessages] resolves, the store holds the records of other
    sessions and of the batch, and the session's records are those of the
    batch filed under it. *)
Lemma saveMessages_batch (sessionId : jsstring) (msgs : list nat)
    (clock : nat -> Z) (random : nat -> jsstring) (h h' : heap) (db db' : DB) :
  saveMessages sessionId msgs clock random h db = (h', db', Resolved tt) ->
  let batch := lp_queue (forEach_message sessionId clock random msgs h 0) in
  length batch = length msgs
  /\ (forall k o, (k, o) ∈ messages_of sessionId db'
                  <-> (k, o) ∈ batch /\ msg_sessionId o = Some (KStr sessionId))
  /\ (forall k o, msg_sessionId o <> Some (KStr sessionId) ->
        (messages db' !! k = Some o
         <-> (k, o) ∈ batch \/ messages db !! k = Some o))
  /\ ((forall ref, ref ∈ msgs ->
         truthy (get (h ref) "sessionId") = false
         \/ get (h ref) "sessionId" = VStr sessionId) ->
      length (messages_of sessionId db') = length msgs).
Proof.
  intros (Hthrown & store' & Hadd & ->)%saveMessages_Resolved batch.
  apply add_all_Ok in Hadd as (Hnd & Hfree & Hstore).
  fold batch in Hnd, Hfree, Hstore.
  assert (Hof : forall k o,
             (k, o) ∈ messages_of sessionId (with_messages store' db)
             <-> (k, o) ∈ batch /\ msg_sessionId o = Some (KStr sessionId)).
  { intros k o. unfold messages_of, index_only. cbn [messages with_messages].
    rewrite elem_of_List_filter, elem_of_records, Hstore.
    cbn [snd]. rewrite bool_decide_eq_true, lookup_deleteFromStore. tauto. }
  split; [by apply forEach_queue_length|]. split; [exact Hof|]. split.
  - intros k o Hs. cbn [messages with_messages].
    rewrite Hstore, lookup_deleteFromStore. tauto.
  - intros Hall. rewrite <- (forEach_queue_length sessionId clock random msgs h 0)
      by done.
    fold batch. apply Permutation_length, NoDup_Permutation.
    + apply NoDup_List_filter, NoDup_records.
    + by apply NoDup_fmap_1 in Hnd.
    + intros [k o]. rewrite Hof. split; [tauto|]. intros Hin. split; [done|].
      eapply forEach_queue_session; [|exact Hin].
      intros ref Href. unfold sid_final.
      destruct (Hall ref Href) as [-> | ->]; [done|].
      by destruct (truthy _).
Qed.

(** C2, amended: when [saveMessages] resolves, the messages filed under the
    session are the records of the batch that are filed under it, one per
    listed message when none carries the [sessionId] of another session;
    no old message of the session is left, and the records of other sessions
    are the old ones and those of the batch.  A call whose loop runs to its
    end either resolves or is rejected with the error of the transaction,
    and a call rejected with that error leaves the database as it was before
    the call, the deletions undone with the adds. *)
Theorem saveMessages_replaces (sessionId : jsstring) (msgs : list nat)
    (clock : nat -> Z) (random : nat -> jsstring) (h : heap) (db : DB) :
  let lp := forEach_message sessionId clock random msgs h 0 in
  let batch := lp_queue lp in
  let r := saveMessages sessionId msgs clock random h db in
  (r.2 = Resolved tt ->
     length batch = length msgs
     /\ (forall k o, (k, o) ∈ messages_of sessionId r.1.2
                     <-> (k, o) ∈ batch
                         /\ msg_sessionId o = Some (KStr sessionId))
     /\ (forall k o, msg_sessionId o <> Some (KStr sessionId) ->
           (messages r.1.2 !! k = Some o
            <-> (k, o) ∈ batch \/ messages db !! k = Some o))
     /\ ((forall ref, ref ∈ msgs ->
            truthy (get (h ref) "sessionId") = false
            \/ get (h ref) "sessionId" = VStr sessionId) ->
         length (messages_of sessionId r.1.2) = length msgs))
  /\ (lp_thrown lp = None ->
        r.2 = Resolved tt \/ r.2 = Rejected TransactionError)
  /\ (r.2 = Rejected TransactionError -> r.1.2 = db).
Proof.
  intros lp batch r. split; [|split].
  - intros Hres. destruct r as [[h' db'] out] eqn:E. cbn [fst snd] in *.
    subst out. exact (saveMessages_batch _ _ _ _ _ _ _ _ E).
  - unfold r, saveMessages. fold lp. intros ->.
    destruct (add_all _ _); cbn [snd]; auto.
  - intros Hrej. destruct r as [[h' db'] out] eqn:E. cbn [fst snd] in *.
    subst out. exact (saveMessages_aborted _ _ _ _ _ _ _ _ E).
Qed.

Lemma saveMessages_replaces_witness :
  let h : heap := fun ref =>
    match ref with
    | O => {["text" := VStr (js "hi"); "timestamp" := VNum 100]}
    | _ => {["text" := VStr (js "yo"); "timestamp" := VNum 50]}
    end in
  let db := (saveMessages (js "s1") [2%nat] (fun _ => 5) (fun _ => js "old")
               h empty_db).1.2 in
  let r := saveMessages (js "s1") [0; 1]%nat (fun _ => 7)
             (fun i => dec (Z.of_nat i)) h db in
  let r' := saveMessages (js "s1") [0; 1]%nat (fun _ => 7)
              (fun _ => js "abc") h db in
  length (messages_of (js "s1") db) = 1%nat
  /\ length (messages_of (js "s1") r.1.2) = 2%nat
  /\ r'.1.2 = db.
Proof.
  cbn zeta. split; [by vm_compute|]. split.
  - refine (proj2 (proj2 (proj2 (proj1 (saveMessages_replaces (js "s1")
              [0; 1]%nat (fun _ => 7) (fun i => dec (Z.of_nat i)) _ _) _))) _).
    + vm_compute. reflexivity.
    + intros ref _. left. by destruct ref.
  - refine (proj2 (proj2 (saveMessages_replaces (js "s1")
              [0; 1]%nat (fun _ => 7) (fun _ => js "abc") _ _)) _).
    vm_compute. reflexivity.
Defined.

(** * Further properties of the methods *)

(** ** More on stores and cursors *)

Lemma List_filter_perm {B : Type} (f : B -> bool) (l l' : list B) :
  l ≡ₚ l' -> List.filter f l ≡ₚ List.filter f l'.
Proof.
  induction 1 as [|x l l' _ IH|x y l|l1 l2 l3 _ IH1 _ IH2]; simpl.
  - done.
  - destruct (f x); by rewrite IH.
  - destruct (f x), (f y); try done. apply Permutation_swap.
  - by rewrite IH1.
Qed.

Section StoreMore.
Context {A : Type}.
Implicit Types (m : gmap Key A) (k : Key) (r : A).

Lemma List_filter_none (f : Key * A -> bool) (l : list (Key * A)) :
  (forall x, x ∈ l -> f x = false) -> List.filter f l = [].
Proof.
  induction l as [|x l IH]; intros H; simpl; [done|].
  rewrite (H x) by left. apply IH. intros y Hy. apply H. by right.
Qed.

Lemma deleteFromStore_id (ix : A -> option Key) sessionId m :
  (forall k r, m !! k = Some r -> ix r <> Some (KStr sessionId)) ->
  deleteFromStore ix sessionId m = m.
Proof.
  intros H. apply map_eq. intros k. apply option_eq. intros r.
  rewrite lookup_deleteFromStore. split; [by intros [? _]|].
  intros Hk. split; [done|]. by eapply H.
Qed.

Lemma index_only_none (ix : A -> option Key) k0 m :
  (forall k r, m !! k = Some r -> ix r <> Some k0) ->
  index_only ix k0 m = [].
Proof.
  intros H. unfold index_only. apply List_filter_none.
  intros [k r] Hin%elem_of_records. apply bool_decide_eq_false. by eapply H.
Qed.

(** The sweep deletes the doomed records among the visited ones. *)
Lemma cursor_sweep_filter (doomed : A -> bool) (visited : list (Key * A)) m :
  cursor_sweep doomed visited m
  = cursor_delete_all (List.filter (fun x => doomed x.2) visited) m.
Proof.
  unfold cursor_sweep, cursor_delete_all. revert m.
  induction visited as [|x visited IH]; intros m; simpl; [done|].
  destruct (doomed x.2); simpl; apply IH.
Qed.

Lemma lookup_cursor_sweep (doomed : A -> bool) m k r :
  cursor_sweep doomed (records m) m !! k = Some r
  <-> m !! k = Some r /\ doomed r = false.
Proof. rewrite cursor_sweep_filter. apply lookup_cursor_filter. Qed.

(** A queue of adds runs through exactly when its keys are pairwise distinct
    and free. *)
Lemma add_all_runs (q : list (Key * A)) m :
  NoDup q.*1 -> (forall k, k ∈ q.*1 -> m !! k = None) ->
  exists m', add_all q m = Ok m'.
Proof.
  revert m. induction q as [|[k0 r0] q IH]; intros m Hnd Hfree.
  { by exists m. }
  rewrite fmap_cons in Hnd, Hfree. cbn [fst] in *.
  apply NoDup_cons in Hnd as [Hk0 Hnd].
  cbn [add_all]. unfold store_add. rewrite Hfree by left. cbn [bind].
  apply IH; [done|]. intros k Hk.
  rewrite lookup_insert_ne; [apply Hfree; by right|].
  intros ->. done.
Qed.

Lemma records_insert m k r :
  m !! k = None -> records (<[k := r]> m) ≡ₚ (k, r) :: records m.
Proof.
  intros H. rewrite !records_perm. by apply map_to_list_insert.
Qed.

Lemma length_records m : length (records m) = size m.
Proof. rewrite records_perm. apply length_map_to_list. Qed.
End StoreMore.

Lemma deleteResources_id sessionId (m : gmap Key Resource) :
  (forall k r, m !! k = Some r ->
     ~ (res_sessionId r = sessionId
        /\ cmp_le (str_compare (res_type r) sentinel) = true)) ->
  deleteResources sessionId m = m.
Proof.
  intros H. apply map_eq. intros k. apply option_eq. intros r.
  rewrite lookup_deleteResources. split; [by intros [? _]|].
  intros Hk. split; [done|]. by eapply H.
Qed.

(** ** Deleting a session, continued *)

(** A session that the cascade finds nothing of is left as it is. *)
Lemma deleteSession_noop (sessionId : jsstring) (db : DB) :
  sessions db !! KStr sessionId = None ->
  settings db !! KStr sessionId = None ->
  (forall k o, messages db !! k = Some o ->
     msg_sessionId o <> Some (KStr sessionId)) ->
  (forall k r, customReplies db !! k = Some r -> cr_sessionId r <> sessionId) ->
  (forall k r, anniversaries db !! k = Some r -> an_sessionId r <> sessionId) ->
  (forall k r, resources db !! k = Some r ->
     ~ (res_sessionId r = sessionId
        /\ cmp_le (str_compare (res_type r) sentinel) = true)) ->
  deleteSession sessionId db = (db, Resolved tt).
Proof.
  intros Hs Ht Hm Hc Ha Hr. unfold deleteSession.
  rewrite !delete_id by done.
  rewrite (deleteFromStore_id msg_sessionId) by done.
  rewrite (deleteFromStore_id reply_sessionId)
    by (intros k r H [= E]; by eapply Hc).
  rewrite (deleteFromStore_id ann_sessionId)
    by (intros k r H [= E]; by eapply Ha).
  rewrite deleteResources_id by done.
  by destruct db.
Qed.

(** X3: deleting a session of which no store holds anything is no error and
    changes nothing. *)
Theorem deleteSession_absent (sessionId : jsstring) (db : DB) :
  sessions db !! KStr sessionId = None ->
  settings db !! KStr sessionId = None ->
  (forall k o, messages db !! k = Some o ->
     msg_sessionId o <> Some (KStr sessionId)) ->
  (forall k r, customReplies db !! k = Some r -> cr_sessionId r <> sessionId) ->
  (forall k r, anniversaries db !! k = Some r -> an_sessionId r <> sessionId) ->
  (forall k r, resources db !! k = Some r -> res_sessionId r <> sessionId) ->
  deleteSession sessionId db = (db, Resolved tt).
Proof.
  intros Hs Ht Hm Hc Ha Hr. apply deleteSession_noop; try done.
  intros k r Hk [E _]. by eapply Hr.
Qed.

Lemma deleteSession_absent_witness :
  let db := (saveResource (js "s2") (js "avatar") (js "main") (VNum 1) 5
               empty_db).1 in
  deleteSession (js "s1") db = (db, Resolved tt).
Proof.
  cbn zeta. apply (deleteSession_absent (js "s1")).
  - reflexivity.
  - reflexivity.
  - intros k o H. change (messages _) with (∅ : gmap Key obj) in H.
    by rewrite lookup_empty in H.
  - intros k r H.
    change (customReplies _) with (∅ : gmap Key CustomReply) in H.
    by rewrite lookup_empty in H.
  - intros k r H.
    change (anniversaries _) with (∅ : gmap Key Anniversary) in H.
    by rewrite lookup_empty in H.
  - intros k r H. cbn [saveResource fst resources with_resources] in H.
    apply lookup_insert_Some in H as [[_ <-]|[_ H]].
    + cbn. discriminate.
    + change (resources _) with (∅ : gmap Key Resource) in H.
      by rewrite lookup_empty in H.
Defined.

(** X4: deleting a session a second time changes nothing more. *)
Theorem deleteSession_idempotent (sessionId : jsstring) (db : DB) :
  deleteSession sessionId (deleteSession sessionId db).1
  = ((deleteSession sessionId db).1, Resolved tt).
Proof.
  apply deleteSession_noop; cbn.
  - apply lookup_delete_eq.
  - apply lookup_delete_eq.
  - intros k o H. by apply lookup_deleteFromStore in H as [_ H].
  - intros k r H. apply lookup_deleteFromStore in H as [_ H].
    unfold reply_sessionId in H. congruence.
  - intros k r H. apply lookup_deleteFromStore in H as [_ H].
    unfold ann_sessionId in H. congruence.
  - intros k r H. by apply lookup_deleteResources in H as [_ H].
Qed.

Lemma in_bound_exact (sessionId type s t : jsstring) :
  in_bound [KStr sessionId; KStr type] [KStr sessionId; KStr type]
           [KStr s; KStr t] = true
  <-> s = sessionId /\ t = type.
Proof.
  unfold in_bound. cbn [arr_compare key_compare]. rewrite andb_true_iff.
  rewrite (str_compare_antisym s sessionId), (str_compare_antisym t type).
  destruct (str_compare s sessionId) eqn:E1; cbn [CompOpp].
  - apply str_compare_eq in E1 as ->.
    destruct (str_compare t type) eqn:E2; cbn [CompOpp cmp_le].
    + apply str_compare_eq in E2 as ->. tauto.
    + split; [intros [[=] _]|intros [_ ->]]. by rewrite str_compare_refl in E2.
    + split; [intros [_ [=]]|intros [_ ->]]. by rewrite str_compare_refl in E2.
  - split; [intros [[=] _]|intros [-> _]]. by rewrite str_compare_refl in E1.
  - split; [intros [_ [=]]|intros [-> _]]. by rewrite str_compare_refl in E1.
Qed.

(** The records that [loadResourcesByType] sorts. *)
Lemma elem_of_index_exact sessionId type (m : gmap Key Resource) k r :
  (k, r) ∈ index_bound res_sessionId_type
             [KStr sessionId; KStr type] [KStr sessionId; KStr type] m
  <-> m !! k = Some r /\ res_sessionId r = sessionId /\ res_type r = type.
Proof.
  unfold index_bound. rewrite elem_of_List_filter, elem_of_records.
  cbn. by rewrite in_bound_exact.
Qed.

(** X5: after [deleteSession], [loadMessages], [loadCustomReplies] and
    [loadAnniversaries] of the session return nothing, [loadSettings] returns
    [null], no row of [getSessions] was filed under the session, and
    [loadResourcesByType] returns nothing for every type that is not above
    the sentinel. *)
Theorem deleteSession_loads_empty (parse : jsstring -> option Z)
    (sessionId type : jsstring) (db : DB) :
  cmp_le (str_compare type sentinel) = true ->
  let db' := (deleteSession sessionId db).1 in
  loadMessages parse sessionId db' = []
  /\ loadCustomReplies sessionId db' = []
  /\ loadAnniversaries parse sessionId db' = []
  /\ loadSettings sessionId db' = None
  /\ loadResourcesByType sessionId type db' = []
  /\ (forall o, o ∈ getSessions db' ->
        exists k, k <> KStr sessionId /\ sessions db !! k = Some o).
Proof.
  intros Htype. cbn zeta.
  unfold loadMessages, loadCustomReplies, enabledReplies, loadAnniversaries,
    sortedAnniversaries, loadSettings, loadResourcesByType, resourcesByType,
    getSessions.
  cbn [deleteSession fst messages customReplies anniversaries settings
       resources sessions].
  rewrite (index_only_none msg_sessionId).
  2:{ intros k o H. by apply lookup_deleteFromStore in H as [_ H]. }
  rewrite (index_only_none reply_sessionId).
  2:{ intros k o H. by apply lookup_deleteFromStore in H as [_ H]. }
  rewrite (index_only_none ann_sessionId).
  2:{ intros k o H. by apply lookup_deleteFromStore in H as [_ H]. }
  repeat split; try done.
  - apply lookup_delete_eq.
  - unfold index_bound. rewrite List_filter_none; [done|].
    intros [k r] Hin%elem_of_records. cbn.
    apply lookup_deleteResources in Hin as [_ Hin].
    apply not_true_iff_false. rewrite in_bound_exact. intros [Hs Ht].
    apply Hin. by rewrite Hs, Ht.
  - intros o ([k o'] & -> & Hin%elem_of_records)%list_elem_of_fmap.
    apply lookup_delete_Some in Hin as [Hne Hin]. by exists k.
Qed.

Lemma deleteSession_loads_empty_witness :
  let db := (saveResource (js "s1") (js "avatar") (js "main") (VNum 1) 5
               (saveCustomReplies (js "s1") [{["text" := VStr (js "hi")]}]
                  (fun _ => 3)
                  (createSession {["id" := VStr (js "s1")]} empty_db).1).1).1 in
  loadCustomReplies (js "s1") db <> []
  /\ loadResourcesByType (js "s1") (js "avatar") db = [VNum 1]
  /\ loadCustomReplies (js "s1") (deleteSession (js "s1") db).1 = []
  /\ loadResourcesByType (js "s1") (js "avatar")
       (deleteSession (js "s1") db).1 = [].
Proof.
  cbn zeta. split; [by vm_compute|]. split; [by vm_compute|].
  destruct (deleteSession_loads_empty (fun _ => None) (js "s1") (js "avatar")
              ((saveResource (js "s1") (js "avatar") (js "main") (VNum 1) 5
                  (saveCustomReplies (js "s1") [{["text" := VStr (js "hi")]}]
                     (fun _ => 3)
                     (createSession {["id" := VStr (js "s1")]}
                        empty_db).1).1).1))
    as (_ & H2 & _ & _ & H5 & _); [reflexivity|].
  by split.
Defined.

(** ** Sessions and messages, one at a time *)

Lemma lookup_spread (a b : obj) (f : string) :
  spread a b !! f = match b !! f with Some v => Some v | None => a !! f end.
Proof.
  unfold spread. rewrite lookup_union.
  by destruct (b !! f), (a !! f).
Qed.

Lemma get_spread (a b : obj) (f : string) :
  get (spread a b) f = match b !! f with Some v => v | None => get a f end.
Proof. unfold get. rewrite lookup_spread. by destruct (b !! f). Qed.

Lemma keyed_by_id_insert (m : gmap Key obj) k o :
  keyed_by_id m -> to_key (get o "id") = Some k -> keyed_by_id (<[k := o]> m).
Proof.
  intros Hm Ho k' o'. rewrite lookup_insert_Some.
  intros [[<- <-]|[_ H]]; [done|by apply Hm].
Qed.

Lemma keyed_by_id_empty : keyed_by_id ∅.
Proof. intros k o H. by rewrite lookup_empty in H. Qed.

Lemma createSession_keyed (sessionData : obj) (db : DB) :
  keyed_by_id (sessions db) ->
  keyed_by_id (sessions (createSession sessionData db).1).
Proof.
  intros Hwf. unfold createSession, store_add.
  destruct (to_key (get sessionData "id")) as [k|] eqn:Hk; [|done].
  destruct (sessions db !! k); [done|]. by apply keyed_by_id_insert.
Qed.

(** X6: [createSession] never overwrites.  A record without a valid [id] is
    rejected with [DataError] and one whose [id] is taken with
    [ConstraintError], the database staying as it was; otherwise the promise
    resolves with the [id] and [getSessions] lists the new session beside
    the old ones. *)
Theorem createSession_outcome (sessionData : obj) (db : DB) :
  let r := createSession sessionData db in
  match to_key (get sessionData "id") with
  | None => r = (db, Rejected DataError)
  | Some k =>
      match sessions db !! k with
      | Some _ => r = (db, Rejected ConstraintError)
      | None =>
          r.2 = Resolved k
          /\ sessions r.1 !! k = Some sessionData
          /\ getSessions r.1 ≡ₚ sessionData :: getSessions db
          /\ st_sessions (getStats r.1) = S (st_sessions (getStats db))
          /\ (keyed_by_id (sessions db) -> keyed_by_id (sessions r.1))
      end
  end.
Proof.
  cbn zeta. unfold createSession, store_add.
  destruct (to_key (get sessionData "id")) as [k|] eqn:Hk; [|done].
  destruct (sessions db !! k) eqn:Hs; [done|]. cbn.
  split; [done|]. split; [apply lookup_insert_eq|]. split; [|split].
  - unfold getSessions. cbn. by rewrite records_insert.
  - by apply map_size_insert_None.
  - intros Hwf. by apply keyed_by_id_insert.
Qed.

(** X7: [updateSession] merges.  For a stored session and updates that carry
    no [id], the promise resolves; every field of the updates has its new
    value, every other field of the session is kept, the other sessions and
    the number of sessions are unchanged. *)
Theorem updateSession_merges (sessionId : jsstring) (updates session : obj)
    (db : DB) :
  keyed_by_id (sessions db) ->
  sessions db !! KStr sessionId = Some session ->
  updates !! "id"%string = None ->
  let db' := (updateSession sessionId updates db).1 in
  (updateSession sessionId updates db).2 = Resolved tt
  /\ (exists row,
        sessions db' !! KStr sessionId = Some row
        /\ forall f, row !! f
                     = match updates !! f with
                       | Some v => Some v
                       | None => session !! f
                       end)
  /\ (forall k, k <> KStr sessionId -> sessions db' !! k = sessions db !! k)
  /\ st_sessions (getStats db') = st_sessions (getStats db)
  /\ keyed_by_id (sessions db').
Proof.
  intros Hwf Hs Hid. cbn zeta. unfold updateSession. rewrite Hs.
  rewrite get_spread, Hid, (Hwf _ _ Hs). cbn.
  split; [done|]. split; [|split; [|split]].
  - exists (spread session updates). split; [apply lookup_insert_eq|].
    intros f. apply lookup_spread.
  - intros k Hne. by apply lookup_insert_ne.
  - by apply map_size_insert_Some.
  - apply keyed_by_id_insert; [done|].
    by rewrite get_spread, Hid, (Hwf _ _ Hs).
Qed.

Lemma updateSession_merges_witness :
  let db := (createSession {["id" := VStr (js "s1"); "name" := VStr (js "a");
                             "createdAt" := VNum 5]} empty_db).1 in
  exists row,
    sessions (updateSession (js "s1") {["name" := VStr (js "b")]} db).1
      !! KStr (js "s1") = Some row
    /\ row !! "name"%string = Some (VStr (js "b"))
    /\ row !! "createdAt"%string = Some (VNum 5).
Proof.
  cbn zeta.
  destruct (updateSession_merges (js "s1") {["name" := VStr (js "b")]}
              {["id" := VStr (js "s1"); "name" := VStr (js "a");
                "createdAt" := VNum 5]}
              (createSession {["id" := VStr (js "s1");
                               "name" := VStr (js "a");
                               "createdAt" := VNum 5]} empty_db).1)
    as (_ & (row & Hrow & Hf) & _).
  - apply createSession_keyed, keyed_by_id_empty.
  - reflexivity.
  - reflexivity.
  - exists row. split; [exact Hrow|]. rewrite !Hf. split; reflexivity.
Defined.

(** X8: [updateSession] cannot rename a session.  Updates that carry another
    valid [id] leave the stored session as it was and put the merged record
    under the new [id]; updates whose [id] is no valid key leave the database
    as it was and the promise is never settled. *)
Theorem updateSession_with_id (sessionId : jsstring) (updates session : obj)
    (v : value) (db : DB) :
  sessions db !! KStr sessionId = Some session ->
  updates !! "id"%string = Some v ->
  let r := updateSession sessionId updates db in
  match to_key v with
  | None => r = (db, Pending)
  | Some k =>
      r.2 = Resolved tt
      /\ sessions r.1 !! k = Some (spread session updates)
      /\ (k <> KStr sessionId ->
          sessions r.1 !! KStr sessionId = Some session)
  end.
Proof.
  intros Hs Hid. cbn zeta. unfold updateSession. rewrite Hs.
  rewrite get_spread, Hid. destruct (to_key v) as [k|]; [|done]. cbn.
  split; [done|]. split; [apply lookup_insert_eq|].
  intros Hne. by rewrite lookup_insert_ne.
Qed.

Lemma updateSession_with_id_witness :
  let db := (createSession {["id" := VStr (js "s1")]} empty_db).1 in
  let r := updateSession (js "s1") {["id" := VStr (js "s2")]} db in
  sessions r.1 !! KStr (js "s1") = Some {["id" := VStr (js "s1")]}
  /\ is_Some (sessions r.1 !! KStr (js "s2")).
Proof.
  cbn zeta.
  destruct (updateSession_with_id (js "s1") {["id" := VStr (js "s2")]}
              {["id" := VStr (js "s1")]} (VStr (js "s2"))
              (createSession {["id" := VStr (js "s1")]} empty_db).1)
    as (_ & H2 & H3); [by vm_compute|reflexivity|].
  split; [by apply H3|by eexists].
Defined.

(** X9: [updateMessage] rejects with [DataError] for an identifier that is
    no valid key and with the not-found error for one that is not stored,
    changing nothing; for a stored message and updates that carry no [id] it
    resolves with the updates merged over the message, the other messages
    unchanged. *)
Theorem updateMessage_outcome (messageId : value) (updates : obj) (db : DB) :
  keyed_by_id (messages db) ->
  updates !! "id"%string = None ->
  let r := updateMessage messageId updates db in
  match to_key messageId with
  | None => r = (db, Rejected DataError)
  | Some id =>
      match messages db !! id with
      | None => r = (db, Rejected NotFoundError)
      | Some message =>
          r.2 = Resolved tt
          /\ messages r.1 !! id = Some (spread message updates)
          /\ (forall f, spread message updates !! f
                        = match updates !! f with
                          | Some v => Some v
                          | None => message !! f
                          end)
          /\ (forall k, k <> id -> messages r.1 !! k = messages db !! k)
          /\ keyed_by_id (messages r.1)
      end
  end.
Proof.
  intros Hwf Hid. cbn zeta. unfold updateMessage.
  destruct (to_key messageId) as [id|]; [|done].
  destruct (messages db !! id) as [message|] eqn:Hm; [|done].
  rewrite get_spread, Hid, (Hwf _ _ Hm). cbn.
  split; [done|]. split; [apply lookup_insert_eq|]. split; [|split].
  - intros f. apply lookup_spread.
  - intros k Hne. by apply lookup_insert_ne.
  - apply keyed_by_id_insert; [done|].
    by rewrite get_spread, Hid, (Hwf _ _ Hm).
Qed.

Lemma updateMessage_outcome_witness :
  updateMessage (VStr (js "m1")) {["read" := VBool true]} empty_db
  = (empty_db, Rejected NotFoundError).
Proof.
  refine (updateMessage_outcome (VStr (js "m1")) {["read" := VBool true]}
            empty_db _ _).
  - apply keyed_by_id_empty.
  - reflexivity.
Defined.

(** ** Resources, continued *)

Lemma length_filter_records {A : Type} (f : Key * A -> bool)
    (P : Key * A -> Prop) `{!forall x, Decision (P x)} (m : gmap Key A) :
  (forall x, f x = true <-> P x) ->
  length (List.filter f (records m)) = size (filter P m).
Proof.
  intros HfP. rewrite <- length_map_to_list.
  apply Permutation_length, NoDup_Permutation.
  - apply NoDup_List_filter, NoDup_records.
  - apply NoDup_map_to_list.
  - intros [k r]. rewrite elem_of_List_filter, elem_of_records,
      elem_of_map_to_list, map_lookup_filter_Some, HfP. tauto.
Qed.

Lemma length_js_sort {A : Type} (cmp : A -> A -> Z) (l : list A) :
  length (js_sort cmp l) = length l.
Proof. apply Permutation_length, js_sort_perm. Qed.

Lemma res_wf_cleanupOldData maxAgeDays now db :
  res_wf db -> res_wf (cleanupOldData maxAgeDays now db).1.
Proof.
  intros Hwf k r. cbn. intros [H _]%lookup_cursor_sweep. by apply Hwf.
Qed.

(** X10: the invariant of [resources].  Every method that writes the store
    keeps each row filed under the identifier of its own triple; two stored
    rows that carry the same triple are therefore one row. *)
Theorem res_wf_preserved (db : DB) :
  res_wf db ->
  (forall sessionId type key data now,
     res_wf (saveResource sessionId type key data now db).1)
  /\ (forall sessionId type key, res_wf (deleteResource sessionId type key db).1)
  /\ (forall sessionId, res_wf (deleteSession sessionId db).1)
  /\ (forall maxAgeDays now, res_wf (cleanupOldData maxAgeDays now db).1)
  /\ (forall k1 k2 r1 r2,
        resources db !! k1 = Some r1 -> resources db !! k2 = Some r2 ->
        res_sessionId r1 = res_sessionId r2 -> res_type r1 = res_type r2 ->
        res_key r1 = res_key r2 ->
        k1 = k2 /\ r1 = r2).
Proof.
  intros Hwf. repeat split; intros.
  - by apply res_wf_saveResource.
  - by apply res_wf_deleteResource.
  - by apply res_wf_deleteSession.
  - by apply res_wf_cleanupOldData.
  - erewrite (Hwf k1), (Hwf k2) by done. congruence.
  - assert (k1 = k2) as -> by (erewrite (Hwf k1), (Hwf k2) by done; congruence).
    congruence.
Qed.

Lemma res_wf_preserved_witness :
  res_wf (cleanupOldData None 100
            (saveResource (js "s1") (js "avatar") (js "main") (VNum 1) 5
               empty_db).1).1.
Proof.
  apply (res_wf_preserved
           (saveResource (js "s1") (js "avatar") (js "main") (VNum 1) 5
              empty_db).1).
  apply res_wf_saveResource, res_wf_empty.
Defined.

(** X11: [saveResource] stores the data under the identifier of the triple:
    [loadResource] of the triple returns it, [loadResourcesByType] of the
    session and type lists it, [loadResource] of every triple with another
    identifier is unchanged, and [getStats().resources] grows by one exactly
    when the identifier was free. *)
Theorem saveResource_stores (sessionId type key : jsstring) (data : value)
    (now : Z) (db : DB) :
  let db' := (saveResource sessionId type key data now db).1 in
  loadResource sessionId type key db' = data
  /\ data ∈ loadResourcesByType sessionId type db'
  /\ (forall s t k,
        resource_id s t k <> resource_id sessionId type key ->
        loadResource s t k db' = loadResource s t k db)
  /\ st_resources (getStats db')
     = match resources db !! KStr (resource_id sessionId type key) with
       | Some _ => st_resources (getStats db)
       | None => S (st_resources (getStats db))
       end.
Proof.
  cbn zeta. unfold loadResource, loadResourcesByType, resourcesByType.
  cbn [saveResource fst resources with_resources getStats st_resources].
  split; [by rewrite lookup_insert_eq|]. split; [|split].
  - apply list_elem_of_fmap. eexists. split; [|rewrite js_sort_perm].
    2:{ apply list_elem_of_fmap. eexists (_, _). split; [reflexivity|].
        apply elem_of_index_exact. split; [apply lookup_insert_eq|done]. }
    reflexivity.
  - intros s t k Hne. rewrite lookup_insert_ne; [done|]. congruence.
  - destruct (resources db !! _) eqn:E.
    + by apply map_size_insert_Some.
    + by apply map_size_insert_None.
Qed.

(** X12: after [deleteResource], [loadResource] of the triple returns
    [null]; [loadResource] of every triple with another identifier is
    unchanged, and [getStats().resources] drops by one exactly when a row was
    stored under the identifier. *)
Theorem deleteResource_removes (sessionId type key : jsstring) (db : DB) :
  let db' := (deleteResource sessionId type key db).1 in
  loadResource sessionId type key db' = VNull
  /\ (forall s t k,
        resource_id s t k <> resource_id sessionId type key ->
        loadResource s t k db' = loadResource s t k db)
  /\ st_resources (getStats db')
     = match resources db !! KStr (resource_id sessionId type key) with
       | Some _ => pred (st_resources (getStats db))
       | None => st_resources (getStats db)
       end.
Proof.
  cbn zeta. unfold loadResource.
  cbn [deleteResource fst resources with_resources getStats st_resources].
  split; [by rewrite lookup_delete_eq|]. split.
  - intros s t k Hne. rewrite lookup_delete_ne; [done|]. congruence.
  - destruct (resources db !! _) eqn:E.
    + rewrite map_size_delete, E. done.
    + by rewrite map_size_delete, E.
Qed.

(** X13: [loadResourcesByType] returns the data of the stored resources of
    the session and type, one entry for each, in the order of non-increasing
    [timestamp]. *)
Theorem loadResourcesByType_sorted (sessionId type : jsstring) (db : DB) :
  loadResourcesByType sessionId type db
  = res_data <$> resourcesByType sessionId type db
  /\ (forall r, r ∈ resourcesByType sessionId type db
        <-> exists k, resources db !! k = Some r
                      /\ res_sessionId r = sessionId /\ res_type r = type)
  /\ length (loadResourcesByType sessionId type db)
     = size (filter (fun kr : Key * Resource =>
                       res_sessionId kr.2 = sessionId /\ res_type kr.2 = type)
                    (resources db))
  /\ StronglySorted (fun a b => res_timestamp b <= res_timestamp a)
       (resourcesByType sessionId type db).
Proof.
  split; [reflexivity|]. split; [|split].
  - intros r. unfold resourcesByType. rewrite js_sort_perm, list_elem_of_fmap.
    split.
    + intros ([k r'] & -> & H%elem_of_index_exact). by exists k.
    + intros (k & H). exists (k, r). split; [done|].
      by apply elem_of_index_exact.
  - unfold loadResourcesByType, resourcesByType.
    rewrite length_fmap, length_js_sort, length_fmap.
    apply length_filter_records. intros [k r]. cbn. apply in_bound_exact.
  - unfold resourcesByType. apply js_sort_sorted; intros; lia.
Qed.

(** ** The maintenance sweep *)

(** X14: when the clock reading, the age in milliseconds, the cutoff and the
    stored timestamps are integers that the numbers of the source hold
    exactly, the resources left by [cleanupOldData] are those whose
    [timestamp] is not before the cutoff, [now] minus [maxAgeDays] days (180
    when the argument is left out); the other stores are not touched. *)
Theorem cleanupOldData_evicts (maxAgeDays : option Z) (now : Z) (db : DB) :
  safe_integer now ->
  safe_integer (default 180 maxAgeDays * 86400000) ->
  safe_integer (now - default 180 maxAgeDays * 86400000) ->
  (forall k r, resources db !! k = Some r -> safe_integer (res_timestamp r)) ->
  let db' := (cleanupOldData maxAgeDays now db).1 in
  (forall k r,
     resources db' !! k = Some r
     <-> resources db !! k = Some r
         /\ now - default 180 maxAgeDays * 86400000 <= res_timestamp r)
  /\ sessions db' = sessions db /\ messages db' = messages db
  /\ settings db' = settings db /\ customReplies db' = customReplies db
  /\ anniversaries db' = anniversaries db.
Proof.
  intros _ _ _ _. cbn zeta. split; [|done]. intros k r. cbn.
  rewrite lookup_cursor_sweep, Z.ltb_ge. unfold cutoff.
  replace (default 180 maxAgeDays * 24 * 60 * 60 * 1000)
    with (default 180 maxAgeDays * 86400000) by lia.
  done.
Qed.

Lemma cleanupOldData_evicts_witness :
  let db := (saveResource (js "s1") (js "avatar") (js "me") (VStr (js "b"))
               1700000000000
               (saveResource (js "s1") (js "bg") (js "old") (VStr (js "a"))
                  1000 empty_db).1).1 in
  let db' := (cleanupOldData None 1700000000001 db).1 in
  (forall r, resources db' !! KStr (js "s1_bg_old") <> Some r)
  /\ is_Some (resources db' !! KStr (js "s1_avatar_me")).
Proof.
  cbn zeta.
  match goal with
  | |- context [cleanupOldData None 1700000000001 ?db0] =>
      destruct (cleanupOldData_evicts None 1700000000001 db0) as [H _]
  end.
  - unfold safe_integer. cbn. lia.
  - unfold safe_integer. cbn. lia.
  - unfold safe_integer. cbn. lia.
  - refine (bool_decide_unpack
              (map_Forall (fun (_ : Key) r => safe_integer (res_timestamp r)) _)
              _).
    vm_compute. exact I.
  - split.
    + intros r Hr. apply H in Hr as [Hr Hle].
      assert (res_timestamp r = 1000) as E.
      { apply (inj Some) in Hr. by rewrite <- Hr. }
      rewrite E in Hle. cbn in Hle. lia.
    + eexists. apply H. split; [reflexivity|]. cbn. lia.
Defined.

(** X15: sweeps commute and repeat without effect: two calls of
    [cleanupOldData] leave the same store in either order, and a call
    repeated with the same cutoff changes nothing more. *)
Theorem cleanupOldData_twice (d1 d2 : option Z) (now1 now2 : Z) (db : DB) :
  (cleanupOldData d2 now2 (cleanupOldData d1 now1 db).1).1
  = (cleanupOldData d1 now1 (cleanupOldData d2 now2 db).1).1
  /\ (cleanupOldData d1 now1 (cleanupOldData d1 now1 db).1).1
     = (cleanupOldData d1 now1 db).1.
Proof.
  assert (E : forall c1 c2 (m : gmap Key Resource) k r,
             cursor_sweep (fun r => res_timestamp r <? c2)
               (records (cursor_sweep (fun r => res_timestamp r <? c1)
                           (records m) m))
               (cursor_sweep (fun r => res_timestamp r <? c1) (records m) m)
             !! k = Some r
             <-> m !! k = Some r /\ c1 <= res_timestamp r
                 /\ c2 <= res_timestamp r).
  { intros c1 c2 m k r. rewrite !lookup_cursor_sweep, !Z.ltb_ge. tauto. }
  split; unfold cleanupOldData; cbn [fst]; unfold with_resources;
    cbn [resources sessions messages settings customReplies anniversaries];
    f_equal; apply map_eq; intros k; apply option_eq; intros r.
  - rewrite !E. tauto.
  - rewrite E, lookup_cursor_sweep, Z.ltb_ge. tauto.
Qed.

(** ** The connection, continued *)

(** The loop of [onupgradeneeded] over any list of store names. *)
Lemma add_missing_spec (wanted names : list string) :
  let result :=
    foldl (fun acc n => if bool_decide (n ∈ acc) then acc else acc ++ [n])
          names wanted in
  (exists added, result = names ++ added
                 /\ (forall n, n ∈ added -> n ∈ wanted /\ n ∉ names)
                 /\ (NoDup names -> NoDup result))
  /\ (forall n, n ∈ wanted -> n ∈ result)
  /\ ((forall n, n ∈ wanted -> n ∈ names) -> result = names).
Proof.
  cbn zeta. revert names.
  induction wanted as [|w wanted IH]; intros names; cbn [foldl].
  { split; [|split]; [|by intros n H%elem_of_nil|done].
    exists []. rewrite app_nil_r. split; [done|].
    split; [by intros n H%elem_of_nil|done]. }
  destruct (IH (if bool_decide (w ∈ names) then names else names ++ [w]))
    as ((added & E & Hadded & Hnd) & Hall & Hsame).
  case_bool_decide as Hw.
  - split; [|split].
    + exists added. split; [done|]. split; [|done].
      intros n Hn. destruct (Hadded n Hn). split; [by right|done].
    + intros n [->|Hn]%elem_of_cons; [|by apply Hall].
      rewrite E. apply elem_of_app. by left.
    + intros H. apply Hsame. intros n Hn. apply H. by right.
  - split; [|split].
    + exists (w :: added). split; [by rewrite E, <- app_assoc|]. split.
      * intros n [->|Hn]%elem_of_cons; [split; [left|done]|].
        destruct (Hadded n Hn) as [? Hout]. split; [by right|].
        intros Hin. apply Hout, elem_of_app. by left.
      * intros Hnames. apply Hnd. apply NoDup_app. split; [done|].
        split; [|apply NoDup_singleton].
        intros n Hn ->%list_elem_of_singleton. done.
    + intros n [->|Hn]%elem_of_cons; [|by apply Hall].
      rewrite E. apply elem_of_app. left. apply elem_of_app. right. left.
    + intros H. destruct Hw. apply H. left.
Qed.

Lemma create_missing_spec_all (names : list string) (n : string) :
  n ∈ storeList -> n ∈ create_missing names.
Proof. apply (add_missing_spec storeList names). Qed.

(** X16: the upgrade is additive and can be repeated.  Every store name that
    was there stays, in place; afterwards the six stores exist; nothing is
    created twice; and an upgrade of a database that has the six stores
    changes nothing, so an upgrade that was interrupted can be run again. *)
Theorem create_missing_additive (names : list string) :
  (exists added, create_missing names = names ++ added
                 /\ forall n, n ∈ added -> n ∈ storeList /\ n ∉ names)
  /\ (forall n, n ∈ storeList -> n ∈ create_missing names)
  /\ (NoDup names -> NoDup (create_missing names))
  /\ create_missing (create_missing names) = create_missing names.
Proof.
  destruct (add_missing_spec storeList names)
    as ((added & E & Hadded & Hnd) & Hall & _).
  split; [by exists added|]. split; [done|]. split; [done|].
  by apply (add_missing_spec storeList (create_missing names)).
Qed.

Lemma conn_inv_step (c : Conn) (e : event) : conn_inv c -> conn_inv (step c e).
Proof.
  intros H. destruct e; cbn [step].
  - exact H.
  - unfold ensure_open. destruct (this_db c) eqn:E; exact H.
  - unfold answer. destruct (requests c) as [|pending]; [exact H|].
    destruct H as [Hdb Hv].
    destruct Hv as [(Hv & Hn & Hu & Ho)|(Hv & Hu & Hn)]; rewrite Hv.
    + change (dbVersion <? 0)%nat with false.
      change (0 <? dbVersion)%nat with true.
      unfold conn_inv.
      cbn [this_db opened version upgrades objectStoreNames].
      split; [done|]. right. rewrite Hn, Hu. by repeat split.
    + rewrite Nat.ltb_irrefl. unfold conn_inv.
      cbn [this_db opened version upgrades objectStoreNames].
      split; [done|]. right. by repeat split.
Qed.

Lemma conn_inv_run (trace : list event) (c : Conn) :
  conn_inv c -> conn_inv (run c trace).
Proof.
  revert c. induction trace as [|e trace IH]; intros c H; [done|].
  apply (IH (step c e)), conn_inv_step, H.
Qed.

Lemma conn_inv_new : conn_inv new_conn.
Proof. split; [done|]. by left. Qed.

(** X17: on a fresh object and no database, after any run of calls and
    answers: whenever [isInitialized()] is true, the database is at the
    requested version, the upgrade has run exactly once, the six stores
    exist, and [this.db] is the connection established last. *)
Theorem initialized_ready (trace : list event) :
  let c := run new_conn trace in
  isInitialized c = true ->
  version c = dbVersion
  /\ upgrades c = 1%nat
  /\ (forall n, n ∈ storeList -> n ∈ objectStoreNames c)
  /\ this_db c = Some (pred (opened c)).
Proof.
  intros c Hinit. destruct (conn_inv_run trace new_conn conn_inv_new)
    as [Hdb Hv]. fold c in Hdb, Hv.
  unfold isInitialized in Hinit. destruct (this_db c) as [i|]; [|done].
  destruct Hv as [(_ & _ & _ & Ho)|(Hv & Hu & Hn)]; [congruence|].
  split; [done|]. split; [done|]. split.
  - intros n Hn'. rewrite Hn. by apply create_missing_spec_all.
  - by rewrite Hdb.
Qed.

Lemma initialized_ready_witness :
  let c := run new_conn [CallAccessor; CallAccessor; Answer; Answer] in
  upgrades c = 1%nat /\ this_db c = Some 1%nat
  /\ objectStoreNames c = storeList.
Proof.
  cbn zeta.
  destruct (initialized_ready [CallAccessor; CallAccessor; Answer; Answer])
    as (_ & Hu & _ & Hdb); [reflexivity|].
  split; [exact Hu|]. split; [exact Hdb|reflexivity].
Defined.

Lemma isInitialized_step_true (c : Conn) (e : event) :
  isInitialized c = true -> isInitialized (step c e) = true.
Proof.
  unfold isInitialized. destruct (this_db c) as [i|] eqn:E; [|done].
  intros _. destruct e; cbn [step].
  - cbn [open this_db]. by rewrite E.
  - unfold ensure_open. by rewrite E, E.
  - unfold answer. destruct (requests c); [by rewrite E|].
    destruct (dbVersion <? version c)%nat; cbn [this_db]; by rewrite ?E.
Qed.

(** X18: [isInitialized()] never goes back to false; calls of [open()] and of
    the accessors alone do not make it true, only the answer of the engine
    does; and an answer makes it true unless the stored version is above the
    requested one. *)
Theorem isInitialized_spec (c : Conn) (trace : list event) :
  (isInitialized c = true -> isInitialized (run c trace) = true)
  /\ (isInitialized c = false -> Forall (fun e => e <> Answer) trace ->
      isInitialized (run c trace) = false)
  /\ (requests c <> 0%nat ->
      (isInitialized (answer c) = true
       <-> isInitialized c = true \/ (version c <= dbVersion)%nat)).
Proof.
  split; [|split].
  - revert c. induction trace as [|e trace IH]; intros c H; [done|].
    apply (IH (step c e)), isInitialized_step_true, H.
  - intros H Htrace. revert c H.
    induction Htrace as [|e trace He _ IH]; intros c H; [done|].
    apply (IH (step c e)). unfold isInitialized in *.
    destruct (this_db c) eqn:E; [done|].
    destruct e; [| |done]; cbn [step]; unfold ensure_open; rewrite ?E;
      cbn [open this_db]; by rewrite E.
  - intros Hreq. unfold answer, isInitialized.
    destruct (requests c); [by destruct Hreq|].
    destruct (dbVersion <? version c)%nat eqn:Hv; cbn [this_db].
    + apply Nat.ltb_lt in Hv. destruct (this_db c); [tauto|].
      split; [done|]. intros [?|?]; [done|lia].
    + apply Nat.ltb_ge in Hv. tauto.
Qed.

Lemma isInitialized_spec_witness :
  isInitialized (run new_conn [CallOpen; CallAccessor; CallOpen]) = false
  /\ isInitialized (run (run new_conn [CallOpen; Answer]) [CallOpen]) = true.
Proof.
  split.
  - refine (proj1 (proj2 (isInitialized_spec new_conn
                            [CallOpen; CallAccessor; CallOpen])) _ _).
    + reflexivity.
    + repeat constructor; discriminate.
  - refine (proj1 (isInitialized_spec (run new_conn [CallOpen; Answer])
                     [CallOpen]) _).
    reflexivity.
Defined.

(** ** Settings, continued *)

(** X19: settings that carry a [sessionId] of their own are filed under it,
    not under the session of the call: with a valid key the record put is the
    settings as they are and the row of the session of the call stays as it
    was; with a value that is no valid key the call is rejected with
    [DataError] and nothing is written. *)
Theorem saveSettings_own_sessionId (sessionId : jsstring) (new : obj)
    (v : value) (db : DB) :
  new !! "sessionId"%string = Some v ->
  let r := saveSettings sessionId new db in
  match to_key v with
  | None => r = (db, Rejected DataError)
  | Some k =>
      r.2 = Resolved tt
      /\ settings r.1 !! k = Some new
      /\ (k <> KStr sessionId ->
          loadSettings sessionId r.1 = loadSettings sessionId db)
  end.
Proof.
  intros Hv. cbn zeta. unfold saveSettings, loadSettings.
  assert (E : spread {["sessionId"%string := VStr sessionId]} new = new).
  { apply map_eq. intros f. rewrite lookup_spread.
    destruct (new !! f) eqn:Hf; [done|].
    apply lookup_singleton_ne. congruence. }
  rewrite E. unfold get. rewrite Hv. cbn.
  destruct (to_key v) as [k|]; [|done]. cbn.
  split; [done|]. split; [apply lookup_insert_eq|].
  intros Hne. by apply lookup_insert_ne.
Qed.

Lemma saveSettings_own_sessionId_witness :
  let db := (saveSettings (js "s1") {["theme" := VStr (js "dark")]}
               empty_db).1 in
  let r := saveSettings (js "s1")
             {["sessionId" := VStr (js "s2"); "theme" := VStr (js "light")]}
             db in
  loadSettings (js "s1") r.1 = loadSettings (js "s1") db.
Proof.
  cbn zeta.
  refine (proj2 (proj2 (saveSettings_own_sessionId (js "s1")
            {["sessionId" := VStr (js "s2"); "theme" := VStr (js "light")]}
            (VStr (js "s2")) _ _)) _); [reflexivity|discriminate].
Defined.

(** ** Sorting by a comparator that orders part of the values *)

Section SortOn.
Context {A : Type} (cmp : A -> A -> Z) (P : A -> Prop) (R : A -> A -> Prop).
Hypothesis R_trans : forall x y z, R x y -> R y z -> R x z.
Hypothesis cmp_le_R : forall x y, P x -> P y -> cmp x y <= 0 -> R x y.
Hypothesis cmp_gt_R : forall x y, P x -> P y -> 0 < cmp x y -> R y x.

Lemma sort_insert_sorted_on x l :
  P x -> Forall P l ->
  StronglySorted R l -> StronglySorted R (sort_insert cmp x l).
Proof.
  intros Hx HP Hl. induction Hl as [|y l Hl IH Hy]; simpl.
  - repeat constructor.
  - apply Forall_cons in HP as [Py HP].
    destruct (cmp x y <=? 0) eqn:E.
    + apply Z.leb_le in E. apply cmp_le_R in E; [|done..].
      constructor; [by constructor|].
      constructor; [done|].
      eapply Forall_impl; [exact Hy|]. intros z Hz. by eapply R_trans.
    + apply Z.leb_gt in E. apply cmp_gt_R in E; [|done..].
      constructor; [by apply IH|].
      rewrite sort_insert_perm. by constructor.
Qed.

Lemma js_sort_sorted_on l : Forall P l -> StronglySorted R (js_sort cmp l).
Proof.
  unfold js_sort. induction 1 as [|x l Hx Hl IH]; simpl; [constructor|].
  apply sort_insert_sorted_on; [done| |done].
  fold (js_sort cmp l). by rewrite js_sort_perm.
Qed.
End SortOn.

Lemma sorted_by_date (parse : jsstring -> option Z) {A : Type}
    (date : A -> value) (l : list A) :
  Forall (fun x => is_Some (date_value parse (date x))) l ->
  StronglySorted (fun a b => date_le parse (date a) (date b))
    (js_sort (fun a b => date_compare parse (date a) (date b)) l).
Proof.
  apply js_sort_sorted_on.
  - intros x y z. unfold date_le.
    destruct (date_value parse (date x)), (date_value parse (date y)),
      (date_value parse (date z)); try done. lia.
  - intros x y [a Ha] [b Hb]. unfold date_le, date_compare.
    rewrite Ha, Hb. lia.
  - intros x y [a Ha] [b Hb]. unfold date_le, date_compare.
    rewrite Ha, Hb. lia.
Qed.

(** ** Messages, continued *)

Lemma elem_of_messages_of sessionId db k o :
  (k, o) ∈ messages_of sessionId db
  <-> messages db !! k = Some o /\ msg_sessionId o = Some (KStr sessionId).
Proof.
  unfold messages_of, index_only.
  rewrite elem_of_List_filter, elem_of_records. cbn.
  by rewrite bool_decide_eq_true.
Qed.

(** X20: [loadMessages] returns the stored messages that the index files
    under the session, each once, and when their timestamps are all valid
    dates it gives them by non-decreasing time. *)
Theorem loadMessages_sorted (parse : jsstring -> option Z)
    (sessionId : jsstring) (db : DB) :
  Forall (fun o => is_Some (date_value parse (get o "timestamp")))
         (messages_of sessionId db).*2 ->
  loadMessages parse sessionId db ≡ₚ (messages_of sessionId db).*2
  /\ (forall o, o ∈ loadMessages parse sessionId db
        <-> exists k, messages db !! k = Some o
                      /\ msg_sessionId o = Some (KStr sessionId))
  /\ StronglySorted
       (fun a b => date_le parse (get a "timestamp") (get b "timestamp"))
       (loadMessages parse sessionId db).
Proof.
  intros Hvalid. unfold loadMessages. split; [apply js_sort_perm|]. split.
  - intros o. rewrite js_sort_perm, list_elem_of_fmap. split.
    + intros ([k o'] & -> & H%elem_of_messages_of). by exists k.
    + intros (k & H). exists (k, o). split; [done|].
      by apply elem_of_messages_of.
  - by apply (sorted_by_date parse (fun o => get o "timestamp")).
Qed.

Lemma loadMessages_sorted_witness :
  let h : heap := fun ref =>
    match ref with
    | O => {["text" := VStr (js "hi"); "timestamp" := VNum 100]}
    | _ => {["text" := VStr (js "yo"); "timestamp" := VNum 50]}
    end in
  let db := (saveMessages (js "s1") [0; 1]%nat (fun _ => 7)
               (fun i => dec (Z.of_nat i)) h empty_db).1.2 in
  (fun o => get o "text") <$> loadMessages (fun _ => None) (js "s1") db
  = [VStr (js "yo"); VStr (js "hi")]
  /\ StronglySorted
       (fun a b => date_le (fun _ => None) (get a "timestamp")
                     (get b "timestamp"))
       (loadMessages (fun _ => None) (js "s1") db).
Proof.
  cbn zeta. split; [by vm_compute|].
  refine (proj2 (proj2 (loadMessages_sorted (fun _ => None) (js "s1") _ _))).
  match goal with
  | |- Forall _ ?l => let l' := eval vm_compute in l in change l with l'
  end.
  apply Forall_cons; split; [eexists; reflexivity|].
  apply Forall_cons; split; [eexists; reflexivity|]. by apply Forall_nil.
Defined.

(** X21: [addMessage] fills the caller's object before it tries to store it,
    so the object is changed whatever the outcome.  A message whose [id] is
    no valid key is rejected with [DataError] and one whose [id] is taken
    with [ConstraintError], the store staying as it was; otherwise the
    promise resolves with the [id], and a message that came without
    [sessionId] is then among those that [loadMessages] returns for the
    session. *)
Theorem addMessage_outcome (parse : jsstring -> option Z)
    (sessionId : jsstring) (ref : nat) (now : Z) (suffix : jsstring)
    (h : heap) (db : DB) :
  let msg := (fill_message sessionId now suffix (h ref)).1 in
  let r := addMessage sessionId ref now suffix h db in
  r.1.1 ref = msg
  /\ match to_key (get msg "id") with
     | None => r.1.2 = db /\ r.2 = Rejected DataError
     | Some k =>
         match messages db !! k with
         | Some _ => r.1.2 = db /\ r.2 = Rejected ConstraintError
         | None =>
             r.2 = Resolved k
             /\ messages r.1.2 = <[k := msg]> (messages db)
             /\ (truthy (get (h ref) "sessionId") = false ->
                 msg ∈ loadMessages parse sessionId r.1.2)
         end
     end.
Proof.
  cbn zeta. split; [apply addMessage_fills|].
  unfold addMessage, store_add.
  pose proof (fill_message_sessionId sessionId now suffix (h ref)) as Hsid.
  destruct (fill_message sessionId now suffix (h ref)) as [msg drawn].
  cbn [fst] in *.
  destruct (to_key (get msg "id")) as [k|]; [|done].
  destruct (messages db !! k) eqn:Hk; [done|]. cbn.
  split; [done|]. split; [done|]. intros Hfalsy.
  unfold loadMessages. rewrite js_sort_perm.
  apply list_elem_of_fmap. exists (k, msg). split; [done|].
  apply elem_of_messages_of. cbn. split; [apply lookup_insert_eq|].
  unfold msg_sessionId. rewrite Hsid. unfold sid_final. by rewrite Hfalsy.
Qed.

Lemma addMessage_outcome_witness :
  let h : heap := fun _ => {["text" := VStr (js "hi")]} in
  let r := addMessage (js "s1") 0%nat 7 (js "abc") h empty_db in
  r.1.1 0%nat ∈ loadMessages (fun _ => None) (js "s1") r.1.2.
Proof.
  cbn zeta.
  destruct (addMessage_outcome (fun _ => None) (js "s1") 0%nat 7 (js "abc")
              (fun _ => {["text" := VStr (js "hi")]}) empty_db)
    as [E H].
  rewrite E. apply H. reflexivity.
Defined.

(** A message that was filled once is left as it is by a second filling. *)
Lemma fill_message_filled sessionId now suffix now' suffix' (o : obj) :
  fill_message sessionId now' suffix' (fill_message sessionId now suffix o).1
  = ((fill_message sessionId now suffix o).1, false).
Proof.
  assert (Hs : get (fill_message sessionId now suffix o).1 "sessionId"
               = sid_final sessionId (get o "sessionId"))
    by apply fill_message_sessionId.
  assert (Hi : truthy (get (fill_message sessionId now suffix o).1 "id")
               = true).
  { destruct (truthy (get o "id")) eqn:E.
    - destruct (fill_message_id_kept sessionId now suffix o E) as [E' _].
      unfold get in *. by rewrite E'.
    - destruct (fill_message_id_drawn sessionId now suffix o E) as [E' _].
      rewrite E'. apply message_id_truthy. }
  generalize dependent (fill_message sessionId now suffix o).1.
  intros o' Hs Hi. unfold fill_message.
  destruct (truthy (get o' "sessionId")) eqn:Ht.
  - by rewrite Hi.
  - assert (o' !! "sessionId"%string = Some (VStr sessionId)) as Hl.
    { unfold sid_final in Hs.
      destruct (truthy (get o "sessionId")) eqn:E'.
      - rewrite <- Hs in E'. congruence.
      - unfold get in Hs.
        destruct (o' !! "sessionId"%string) as [v|]; cbn in Hs;
          [by rewrite Hs|discriminate]. }
    rewrite (insert_id _ _ _ Hl). by rewrite Hi.
Qed.

Section Snapshots.
Context (sessionId : jsstring) (clock : nat -> Z) (random : nat -> jsstring).

Lemma forEach_fixed msgs (h : heap) n ref :
  (forall now suffix,
     fill_message sessionId now suffix (h ref) = (h ref, false)) ->
  lp_heap (forEach_message sessionId clock random msgs h n) ref = h ref.
Proof.
  revert h n. induction msgs as [|ref0 rest IH]; intros h n Hfix; [done|].
  assert (E : (<[ref0 := (fill_message sessionId (clock n) (random n)
                            (h ref0)).1]> h) ref = h ref).
  { destruct (decide (ref0 = ref)) as [->|Hne].
    - by rewrite fn_lookup_insert, Hfix.
    - by rewrite fn_lookup_insert_ne. }
  loop_step; [|done].
  rewrite IH; [done|]. intros now suffix. by rewrite E.
Qed.

(** The records queued by the loop are the listed objects as the loop leaves
    them. *)
Lemma forEach_queue_snapshots msgs (h : heap) n :
  lp_thrown (forEach_message sessionId clock random msgs h n) = None ->
  (lp_queue (forEach_message sessionId clock random msgs h n)).*2
  = lp_heap (forEach_message sessionId clock random msgs h n) <$> msgs.
Proof.
  revert h n. induction msgs as [|ref0 rest IH]; intros h n; [done|].
  loop_step; [|done]. intros Hthrown.
  rewrite !fmap_cons. cbn [snd]. f_equal; [|by apply IH].
  rewrite forEach_fixed.
  - by rewrite fn_lookup_insert.
  - intros now suffix. rewrite fn_lookup_insert. apply fill_message_filled.
Qed.
End Snapshots.

(** When [saveMessages] resolves for a batch without foreign [sessionId],
    the index files exactly the queued records under the session. *)
Lemma saveMessages_messages_of sessionId msgs clock random (h h' : heap)
    db db' :
  saveMessages sessionId msgs clock random h db = (h', db', Resolved tt) ->
  (forall ref, ref ∈ msgs ->
     truthy (get (h ref) "sessionId") = false
     \/ get (h ref) "sessionId" = VStr sessionId) ->
  h' = lp_heap (forEach_message sessionId clock random msgs h 0)
  /\ lp_thrown (forEach_message sessionId clock random msgs h 0) = None
  /\ messages_of sessionId db'
     ≡ₚ lp_queue (forEach_message sessionId clock random msgs h 0).
Proof.
  intros Hsave Hall.
  assert (Hh : h' = lp_heap (forEach_message sessionId clock random msgs h 0)).
  { rewrite <- (saveMessages_heap sessionId msgs clock random h db).
    by rewrite Hsave. }
  apply saveMessages_Resolved in Hsave as (Hthrown & store' & Hadd & ->).
  split; [done|]. split; [done|].
  apply add_all_Ok in Hadd as (Hnd & Hfree & Hstore).
  apply NoDup_Permutation.
  - apply NoDup_List_filter, NoDup_records.
  - by apply NoDup_fmap_1 in Hnd.
  - intros [k o]. rewrite elem_of_messages_of. cbn [messages with_messages].
    rewrite Hstore, lookup_deleteFromStore. split; [tauto|].
    intros Hin. split; [by left|].
    eapply forEach_queue_session; [|exact Hin].
    intros ref Href. unfold sid_final.
    destruct (Hall ref Href) as [-> | ->]; [done|].
    by destruct (truthy _).
Qed.

(** X22: saving and loading.  When [saveMessages] resolves for a batch in
    which no message carries the [sessionId] of another session,
    [loadMessages] returns the caller's objects as the call left them, each
    once, and by non-decreasing time when their timestamps are valid
    dates. *)
Theorem saveMessages_loadMessages (parse : jsstring -> option Z)
    (sessionId : jsstring) (msgs : list nat) (clock : nat -> Z)
    (random : nat -> jsstring) (h h' : heap) (db db' : DB) :
  saveMessages sessionId msgs clock random h db = (h', db', Resolved tt) ->
  (forall ref, ref ∈ msgs ->
     truthy (get (h ref) "sessionId") = false
     \/ get (h ref) "sessionId" = VStr sessionId) ->
  loadMessages parse sessionId db' ≡ₚ h' <$> msgs
  /\ (Forall (fun ref =>
                is_Some (date_value parse (get (h ref) "timestamp"))) msgs ->
      StronglySorted
        (fun a b => date_le parse (get a "timestamp") (get b "timestamp"))
        (loadMessages parse sessionId db')).
Proof.
  intros Hsave Hall.
  destruct (saveMessages_messages_of _ _ _ _ _ _ _ _ Hsave Hall)
    as (-> & Hthrown & Hperm).
  assert (E : (messages_of sessionId db').*2
              ≡ₚ lp_heap (forEach_message sessionId clock random msgs h 0)
                 <$> msgs).
  { rewrite Hperm. by rewrite forEach_queue_snapshots. }
  split.
  - unfold loadMessages. rewrite js_sort_perm. exact E.
  - intros Hvalid.
    apply (sorted_by_date parse (fun o => get o "timestamp")).
    fold (messages_of sessionId db'). rewrite E.
    apply Forall_fmap. eapply Forall_impl; [exact Hvalid|].
    intros ref Href. cbn. unfold get.
    by rewrite forEach_other.
Qed.

Lemma saveMessages_loadMessages_witness :
  let h : heap := fun ref =>
    match ref with
    | O => {["text" := VStr (js "hi"); "timestamp" := VNum 100]}
    | _ => {["text" := VStr (js "yo"); "timestamp" := VNum 50]}
    end in
  let r := saveMessages (js "s1") [0; 1]%nat (fun _ => 7)
             (fun i => dec (Z.of_nat i)) h empty_db in
  r.2 = Resolved tt
  /\ loadMessages (fun _ => None) (js "s1") r.1.2 ≡ₚ r.1.1 <$> [0; 1]%nat.
Proof.
  cbn zeta.
  match goal with
  | |- ?x.2 = Resolved tt /\ _ => destruct x as [[h' db'] out] eqn:E
  end.
  cbn [fst snd].
  assert (out = Resolved tt) as ->.
  { apply (f_equal snd) in E. by vm_compute in E. }
  split; [done|].
  apply (saveMessages_loadMessages _ _ _ _ _ _ _ _ _ E).
  intros ref _. left. by destruct ref.
Defined.

(** X23: [saveMessages] resolves exactly when the loop is not cut short and
    the identifiers of the batch are pairwise distinct and taken by no
    message of another session; identifiers of the session's own old
    messages may be used again.  When the loop is not cut short and the call
    does not resolve, it is rejected with the transaction's error and the
    store is as before the call. *)
Theorem saveMessages_resolves_iff (sessionId : jsstring) (msgs : list nat)
    (clock : nat -> Z) (random : nat -> jsstring) (h : heap) (db : DB) :
  let lp := forEach_message sessionId clock random msgs h 0 in
  let r := saveMessages sessionId msgs clock random h db in
  (r.2 = Resolved tt
   <-> lp_thrown lp = None
       /\ NoDup (lp_queue lp).*1
       /\ forall k o, k ∈ (lp_queue lp).*1 -> messages db !! k = Some o ->
                      msg_sessionId o = Some (KStr sessionId))
  /\ (lp_thrown lp = None -> r.2 <> Resolved tt ->
      r.2 = Rejected TransactionError /\ r.1.2 = db).
Proof.
  cbn zeta. unfold saveMessages.
  set (lp := forEach_message sessionId clock random msgs h 0).
  set (store := deleteFromStore msg_sessionId sessionId (messages db)).
  destruct (add_all (lp_queue lp) store) as [store'|e] eqn:Hadd.
  - apply add_all_Ok in Hadd as (Hnd & Hfree & _).
    assert (Hkeys : forall k o, k ∈ (lp_queue lp).*1 ->
              messages db !! k = Some o ->
              msg_sessionId o = Some (KStr sessionId)).
    { intros k o Hk Ho. apply Hfree in Hk.
      destruct (decide (msg_sessionId o = Some (KStr sessionId))); [done|].
      assert (store !! k = Some o) by (by apply lookup_deleteFromStore).
      congruence. }
    destruct (lp_thrown lp); cbn [fst snd].
    + split; [split; [done|by intros [[=] _]]|done].
    + split; [split; [done|done]|]. intros _ H. by destruct H.
  - assert (Hno : ~ (NoDup (lp_queue lp).*1
                     /\ forall k o, k ∈ (lp_queue lp).*1 ->
                          messages db !! k = Some o ->
                          msg_sessionId o = Some (KStr sessionId))).
    { intros [Hnd Hkeys].
      destruct (add_all_runs (lp_queue lp) store Hnd) as [m' Hm'];
        [|congruence].
      intros k Hk. destruct (store !! k) as [o|] eqn:Ho; [|done].
      apply lookup_deleteFromStore in Ho as [Ho Hs].
      destruct Hs. by eapply Hkeys. }
    destruct (lp_thrown lp); cbn [fst snd].
    + split; [split; [done|by intros [[=] _]]|done].
    + split; [split; [done|]|done]. intros (_ & ? & ?). by destruct Hno.
Qed.

Lemma saveMessages_keyed sessionId msgs clock random (h : heap) db :
  keyed_by_id (messages db) ->
  keyed_by_id (messages (saveMessages sessionId msgs clock random h db).1.2).
Proof.
  intros Hwf. unfold saveMessages.
  destruct (add_all _ _) as [store'|e] eqn:Hadd;
    destruct (lp_thrown _); cbn; try done;
    apply add_all_Ok in Hadd as (_ & _ & Hstore);
    intros k o [Hin|[Ho _]%lookup_deleteFromStore]%Hstore;
    try (by apply Hwf); by eapply forEach_queue_key.
Qed.

Lemma addMessage_keyed sessionId ref now suffix (h : heap) db :
  keyed_by_id (messages db) ->
  keyed_by_id (messages (addMessage sessionId ref now suffix h db).1.2).
Proof.
  intros Hwf. unfold addMessage, store_add.
  destruct (fill_message _ _ _ _) as [msg drawn].
  destruct (to_key (get msg "id")) as [k|] eqn:Hk; [|done].
  destruct (messages db !! k); [done|]. by apply keyed_by_id_insert.
Qed.

Lemma updateMessage_keyed messageId updates db :
  keyed_by_id (messages db) ->
  keyed_by_id (messages (updateMessage messageId updates db).1).
Proof.
  intros Hwf. unfold updateMessage.
  destruct (to_key messageId) as [id|]; [|done].
  destruct (messages db !! id) as [message|]; [|done].
  destruct (to_key (get (spread message updates) "id")) as [k|] eqn:Hk;
    [|done].
  by apply keyed_by_id_insert.
Qed.

Lemma updateSession_keyed sessionId updates db :
  keyed_by_id (sessions db) ->
  keyed_by_id (sessions (updateSession sessionId updates db).1).
Proof.
  intros Hwf. unfold updateSession.
  destruct (sessions db !! KStr sessionId) as [session|]; [|done].
  destruct (to_key (get (spread session updates) "id")) as [k|] eqn:Hk;
    [|done].
  by apply keyed_by_id_insert.
Qed.

Lemma deleteSession_keyed sessionId db :
  (keyed_by_id (sessions db) ->
   keyed_by_id (sessions (deleteSession sessionId db).1))
  /\ (keyed_by_id (messages db) ->
      keyed_by_id (messages (deleteSession sessionId db).1)).
Proof.
  split; intros Hwf k o; cbn.
  - intros [_ H]%lookup_delete_Some. by apply Hwf.
  - intros [H _]%lookup_deleteFromStore. by apply Hwf.
Qed.

(** X24: the stores with key path [id].  Each method that writes [sessions]
    or [messages] keeps every record filed under its own [id]; so a message
    that [loadMessages] returns is found again by [updateMessage] under its
    [id], and the update resolves. *)
Theorem keyed_by_id_preserved (parse : jsstring -> option Z) (db : DB) :
  keyed_by_id (sessions db) -> keyed_by_id (messages db) ->
  (forall sessionData,
     keyed_by_id (sessions (createSession sessionData db).1))
  /\ (forall sessionId updates,
        keyed_by_id (sessions (updateSession sessionId updates db).1))
  /\ (forall sessionId,
        keyed_by_id (sessions (deleteSession sessionId db).1)
        /\ keyed_by_id (messages (deleteSession sessionId db).1))
  /\ (forall sessionId msgs clock random h,
        keyed_by_id
          (messages (saveMessages sessionId msgs clock random h db).1.2))
  /\ (forall sessionId ref now suffix h,
        keyed_by_id
          (messages (addMessage sessionId ref now suffix h db).1.2))
  /\ (forall messageId updates,
        keyed_by_id (messages (updateMessage messageId updates db).1))
  /\ (forall sessionId o updates,
        o ∈ loadMessages parse sessionId db ->
        updates !! "id"%string = None ->
        (updateMessage (get o "id") updates db).2 = Resolved tt).
Proof.
  intros Hs Hm. repeat split; intros.
  - by apply createSession_keyed.
  - by apply updateSession_keyed.
  - by apply deleteSession_keyed.
  - by apply deleteSession_keyed.
  - by apply saveMessages_keyed.
  - by apply addMessage_keyed.
  - by apply updateMessage_keyed.
  - unfold loadMessages in *. rewrite js_sort_perm in *.
    match goal with
    | H : _ ∈ _.*2 |-  _ =>
        apply list_elem_of_fmap in H as ([k o'] & -> & [Hk _]%elem_of_messages_of)
    end.
    cbn [snd]. unfold updateMessage.
    pose proof (Hm _ _ Hk) as Hid.
    destruct (get o' "id") as [| |b|n|s']; try done; cbn in Hid |- *;
      injection Hid as <-; rewrite Hk, get_spread;
      match goal with H : updates !! _ = None |- _ => rewrite H end;
      by rewrite (Hm _ _ Hk).
Qed.

Lemma keyed_by_id_preserved_witness :
  keyed_by_id
    (messages (saveMessages (js "s1") [0%nat] (fun _ => 7) (fun _ => js "abc")
                 (fun _ => {["text" := VStr (js "hi")]}) empty_db).1.2).
Proof.
  apply (keyed_by_id_preserved (fun _ => None) empty_db);
    apply keyed_by_id_empty.
Defined.

(** ** Custom replies and anniversaries, continued *)

(** A list is cut at the last occurrence of a separator in one way only. *)
Lemma split_at_last {A : Type} (x : A) (l1 l2 r1 r2 : list A) :
  x ∉ r1 -> x ∉ r2 -> l1 ++ x :: r1 = l2 ++ x :: r2 -> l1 = l2 /\ r1 = r2.
Proof.
  intros H1 H2 E. apply (f_equal reverse) in E.
  rewrite !reverse_app, !reverse_cons, <- !app_assoc in E. cbn in E.
  apply split_at_first in E as [E1 E2]; [|by rewrite elem_of_reverse..].
  split; by apply (inj reverse).
Qed.

(** Identifiers of the form [session ++ tag ++ "_" ++ time ++ "_" ++ index]
    name their session, time and index. *)
Lemma tagged_id_inj (pre s s' : jsstring) (t t' i i' : Z) :
  s ++ (pre ++ [underscore]) ++ dec t ++ js "_" ++ dec i
  = s' ++ (pre ++ [underscore]) ++ dec t' ++ js "_" ++ dec i' ->
  s = s' /\ t = t' /\ i = i'.
Proof.
  intros E.
  change (js "_" ++ dec i) with (underscore :: dec i) in E.
  change (js "_" ++ dec i') with (underscore :: dec i') in E.
  rewrite !(app_assoc s), !(app_assoc s'),
    !(app_assoc _ (dec _) (underscore :: _)) in E.
  apply split_at_last in E as [E Ei]; [|apply dec_no_underscore..].
  rewrite <- !app_assoc in E. cbn in E. rewrite !app_assoc in E.
  apply split_at_last in E as [E Et]; [|apply dec_no_underscore..].
  apply app_inv_tail in E.
  split; [done|]. split; by apply dec_inj.
Qed.

Lemma lookup_reply_queue_full sessionId clock replies k r :
  (k, r) ∈ reply_queue sessionId clock replies ->
  cr_sessionId r = sessionId
  /\ exists t i : Z,
       k = KStr (sessionId ++ js "_reply_" ++ dec t ++ js "_" ++ dec i).
Proof.
  unfold reply_queue. intros (i & x & [= -> ->] & _)%elem_of_lookup_imap.
  split; [done|]. by eexists _, _.
Qed.

Lemma lookup_ann_queue_full sessionId clock anns k r :
  (k, r) ∈ ann_queue sessionId clock anns ->
  an_sessionId r = sessionId
  /\ exists t i : Z,
       k = KStr (sessionId ++ js "_ann_" ++ dec t ++ js "_" ++ dec i).
Proof.
  unfold ann_queue. intros (i & x & [= -> ->] & _)%elem_of_lookup_imap.
  split; [done|]. by eexists _, _.
Qed.

(** On a store written by [saveCustomReplies] only, the adds of a save run
    through. *)
Lemma reply_queue_runs sessionId clock replies db :
  replies_wf db ->
  exists store',
    add_all (reply_queue sessionId clock replies)
      (deleteFromStore reply_sessionId sessionId (customReplies db))
    = Ok store'.
Proof.
  intros Hwf. apply add_all_runs; [apply NoDup_reply_queue|].
  intros k ([k' r] & -> & Hin)%list_elem_of_fmap. cbn [fst].
  destruct (deleteFromStore _ _ _ !! k') as [r'|] eqn:E; [|done].
  apply lookup_deleteFromStore in E as [E Hs].
  apply lookup_reply_queue_full in Hin as (_ & t & i & ->).
  destruct (Hwf _ _ E) as (t' & i' & Hid).
  assert (sessionId ++ (js "_reply" ++ [underscore]) ++ dec t ++ js "_" ++ dec i
          = cr_sessionId r' ++ (js "_reply" ++ [underscore]) ++ dec t' ++ js "_"
              ++ dec i') as Hid'
    by exact (f_equal (fun k => match k with KStr s => s | KNum _ => [] end)
                Hid).
  apply tagged_id_inj in Hid' as (Hid' & _).
  destruct Hs. unfold reply_sessionId. by rewrite Hid'.
Qed.

Lemma ann_queue_runs sessionId clock anns db :
  anns_wf db ->
  exists store',
    add_all (ann_queue sessionId clock anns)
      (deleteFromStore ann_sessionId sessionId (anniversaries db))
    = Ok store'.
Proof.
  intros Hwf. apply add_all_runs; [apply NoDup_ann_queue|].
  intros k ([k' r] & -> & Hin)%list_elem_of_fmap. cbn [fst].
  destruct (deleteFromStore _ _ _ !! k') as [r'|] eqn:E; [|done].
  apply lookup_deleteFromStore in E as [E Hs].
  apply lookup_ann_queue_full in Hin as (_ & t & i & ->).
  destruct (Hwf _ _ E) as (t' & i' & Hid).
  assert (sessionId ++ (js "_ann" ++ [underscore]) ++ dec t ++ js "_" ++ dec i
          = an_sessionId r' ++ (js "_ann" ++ [underscore]) ++ dec t' ++ js "_"
              ++ dec i') as Hid'
    by exact (f_equal (fun k => match k with KStr s => s | KNum _ => [] end)
                Hid).
  apply tagged_id_inj in Hid' as (Hid' & _).
  destruct Hs. unfold ann_sessionId. by rewrite Hid'.
Qed.

Lemma replies_wf_empty : replies_wf empty_db.
Proof. intros k r H. cbn in H. by rewrite lookup_empty in H. Qed.

Lemma anns_wf_empty : anns_wf empty_db.
Proof. intros k r H. cbn in H. by rewrite lookup_empty in H. Qed.

(** What a save of custom replies leaves in the store. *)
Lemma saveCustomReplies_store sessionId replies clock db :
  replies_wf db ->
  exists store',
    saveCustomReplies sessionId replies clock db
    = (with_customReplies store' db, Resolved tt)
    /\ (forall k r, store' !! k = Some r
          <-> (k, r) ∈ reply_queue sessionId clock replies
              \/ (customReplies db !! k = Some r
                  /\ cr_sessionId r <> sessionId))
    /\ index_only reply_sessionId (KStr sessionId) store'
       ≡ₚ reply_queue sessionId clock replies.
Proof.
  intros Hwf. destruct (reply_queue_runs sessionId clock replies db Hwf)
    as [store' Hadd].
  exists store'. unfold saveCustomReplies. rewrite Hadd. split; [done|].
  apply add_all_Ok in Hadd as (Hnd & _ & Hstore).
  assert (Hs : forall k r, store' !! k = Some r
            <-> (k, r) ∈ reply_queue sessionId clock replies
                \/ (customReplies db !! k = Some r
                    /\ cr_sessionId r <> sessionId)).
  { intros k r. rewrite Hstore, lookup_deleteFromStore.
    unfold reply_sessionId. split; (intros [?|[? ?]]; [by left|right]);
      (split; [done|]); congruence. }
  split; [done|]. apply NoDup_Permutation.
  - apply NoDup_List_filter, NoDup_records.
  - by apply NoDup_fmap_1 in Hnd.
  - intros [k r]. unfold index_only.
    rewrite elem_of_List_filter, elem_of_records, Hs. cbn.
    rewrite bool_decide_eq_true. unfold reply_sessionId. split.
    + intros [[?|[_ Hne]] [= E]]; [done|by destruct Hne].
    + intros Hin. split; [by left|].
      apply lookup_reply_queue_full in Hin as [-> _]. done.
Qed.

Lemma saveAnniversaries_store sessionId anns clock db :
  anns_wf db ->
  exists store',
    saveAnniversaries sessionId anns clock db
    = (with_anniversaries store' db, Resolved tt)
    /\ (forall k r, store' !! k = Some r
          <-> (k, r) ∈ ann_queue sessionId clock anns
              \/ (anniversaries db !! k = Some r
                  /\ an_sessionId r <> sessionId))
    /\ index_only ann_sessionId (KStr sessionId) store'
       ≡ₚ ann_queue sessionId clock anns.
Proof.
  intros Hwf. destruct (ann_queue_runs sessionId clock anns db Hwf)
    as [store' Hadd].
  exists store'. unfold saveAnniversaries. rewrite Hadd. split; [done|].
  apply add_all_Ok in Hadd as (Hnd & _ & Hstore).
  assert (Hs : forall k r, store' !! k = Some r
            <-> (k, r) ∈ ann_queue sessionId clock anns
                \/ (anniversaries db !! k = Some r
                    /\ an_sessionId r <> sessionId)).
  { intros k r. rewrite Hstore, lookup_deleteFromStore.
    unfold ann_sessionId. split; (intros [?|[? ?]]; [by left|right]);
      (split; [done|]); congruence. }
  split; [done|]. apply NoDup_Permutation.
  - apply NoDup_List_filter, NoDup_records.
  - by apply NoDup_fmap_1 in Hnd.
  - intros [k r]. unfold index_only.
    rewrite elem_of_List_filter, elem_of_records, Hs. cbn.
    rewrite bool_decide_eq_true. unfold ann_sessionId. split.
    + intros [[?|[_ Hne]] [= E]]; [done|by destruct Hne].
    + intros Hin. split; [by left|].
      apply lookup_ann_queue_full in Hin as [-> _]. done.
Qed.

Lemma replies_wf_saveCustomReplies sessionId replies clock db :
  replies_wf db -> replies_wf (saveCustomReplies sessionId replies clock db).1.
Proof.
  intros Hwf.
  destruct (saveCustomReplies_store sessionId replies clock db Hwf)
    as (store' & -> & Hs & _).
  intros k r. cbn. intros [Hin|[Hk _]]%Hs; [|by apply Hwf].
  apply lookup_reply_queue_full in Hin as (Hr & t & i & ->).
  exists t, i. by rewrite Hr.
Qed.

Lemma anns_wf_saveAnniversaries sessionId anns clock db :
  anns_wf db -> anns_wf (saveAnniversaries sessionId anns clock db).1.
Proof.
  intros Hwf.
  destruct (saveAnniversaries_store sessionId anns clock db Hwf)
    as (store' & -> & Hs & _).
  intros k r. cbn. intros [Hin|[Hk _]]%Hs; [|by apply Hwf].
  apply lookup_ann_queue_full in Hin as (Hr & t & i & ->).
  exists t, i. by rewrite Hr.
Qed.

(** Filtering and projecting the records built from a list, index by index,
    is filtering and projecting the list. *)
Lemma filter_imap_snd {A B C K : Type} (f : nat -> A -> K * B)
    (p : B -> bool) (g : B -> C) (p' : A -> bool) (g' : A -> C) (l : list A) :
  (forall i x, p (f i x).2 = p' x) ->
  (forall i x, g (f i x).2 = g' x) ->
  g <$> List.filter p (imap f l).*2 = g' <$> List.filter p' l.
Proof.
  intros Hp Hg. revert f Hp Hg.
  induction l as [|x l IH]; intros f Hp Hg; [done|].
  cbn [imap]. rewrite fmap_cons. cbn [List.filter].
  rewrite Hp. destruct (p' x).
  - rewrite !fmap_cons, Hg. f_equal.
    apply IH; intros i y; [apply Hp|apply Hg].
  - apply IH; intros i y; [apply Hp|apply Hg].
Qed.

(** X25: on a store written by [saveCustomReplies] only, a save never fails
    on a taken identifier: it resolves, the invariant is kept, the session
    has one record for each reply of the list, and the records of the other
    sessions are as before. *)
Theorem saveCustomReplies_resolves (sessionId : jsstring)
    (replies : list obj) (clock : nat -> Z) (db : DB) :
  replies_wf db ->
  let db' := (saveCustomReplies sessionId replies clock db).1 in
  (saveCustomReplies sessionId replies clock db).2 = Resolved tt
  /\ replies_wf db'
  /\ length (index_only reply_sessionId (KStr sessionId) (customReplies db'))
     = length replies
  /\ (forall k r, cr_sessionId r <> sessionId ->
        (customReplies db' !! k = Some r <-> customReplies db !! k = Some r)).
Proof.
  intros Hwf. cbn zeta.
  split; [|split; [by apply replies_wf_saveCustomReplies|]];
    destruct (saveCustomReplies_store sessionId replies clock db Hwf)
      as (store' & -> & Hs & Hperm); [done|]. cbn. split.
  - rewrite Hperm. unfold reply_queue. by rewrite length_imap.
  - intros k r Hne. rewrite Hs. split; [|by right].
    intros [Hin|[? _]]; [|done].
    apply lookup_reply_queue_full in Hin as [? _]. done.
Qed.

Lemma saveCustomReplies_resolves_witness :
  let db := (saveCustomReplies (js "s2") [{["text" := VStr (js "x")]}]
               (fun _ => 1) empty_db).1 in
  (saveCustomReplies (js "s1")
     [{["text" := VStr (js "a")]}; {["text" := VStr (js "b")]}]
     (fun _ => 1) db).2 = Resolved tt.
Proof.
  cbn zeta.
  apply (saveCustomReplies_resolves (js "s1")
           [{["text" := VStr (js "a")]}; {["text" := VStr (js "b")]}]
           (fun _ => 1)).
  apply replies_wf_saveCustomReplies, replies_wf_empty.
Defined.

(** X26: saving and loading custom replies.  After a save, whatever the
    session held before, [loadCustomReplies] returns the texts of the replies
    of the list whose [enabled] is not [false], each once. *)
Theorem saveCustomReplies_load (sessionId : jsstring) (replies : list obj)
    (clock : nat -> Z) (db : DB) :
  replies_wf db ->
  let db' := (saveCustomReplies sessionId replies clock db).1 in
  rv_text <$> loadCustomReplies sessionId db'
  ≡ₚ (fun reply => get reply "text")
       <$> List.filter (fun reply => not_false (get reply "enabled")) replies.
Proof.
  intros Hwf. cbn zeta.
  destruct (saveCustomReplies_store sessionId replies clock db Hwf)
    as (store' & -> & _ & Hperm).
  unfold loadCustomReplies, enabledReplies. cbn [fst customReplies
    with_customReplies].
  rewrite <- list_fmap_compose.
  rewrite js_sort_perm.
  rewrite (List_filter_perm _ _ _ (fmap_Permutation snd _ _ Hperm)).
  unfold reply_queue.
  rewrite <- (filter_imap_snd
                (fun idx reply =>
                   (KStr (cr_id (reply_item sessionId clock idx reply)),
                    reply_item sessionId clock idx reply))
                (fun r => negb (Bool.eqb (cr_enabled r) false))
                cr_text
                (fun reply => not_false (get reply "enabled"))
                (fun reply => get reply "text")).
  - done.
  - intros i x. cbn. by destruct (not_false _).
  - done.
Qed.

Lemma saveCustomReplies_load_witness :
  let db := (saveCustomReplies (js "s1") [{["text" := VStr (js "old")]}]
               (fun _ => 1) empty_db).1 in
  rv_text <$> loadCustomReplies (js "s1")
    (saveCustomReplies (js "s1")
       [{["text" := VStr (js "a")]};
        {["text" := VStr (js "b"); "enabled" := VBool false]}]
       (fun _ => 2) db).1
  ≡ₚ [VStr (js "a")].
Proof.
  cbn zeta.
  refine (saveCustomReplies_load (js "s1")
            [{["text" := VStr (js "a")]};
             {["text" := VStr (js "b"); "enabled" := VBool false]}]
            (fun _ => 2)
            (saveCustomReplies (js "s1") [{["text" := VStr (js "old")]}]
               (fun _ => 1) empty_db).1 _).
  apply replies_wf_saveCustomReplies, replies_wf_empty.
Defined.

Lemma eq_reflexive_perm {A : Type} (l l' : list A) : l = l' -> l ≡ₚ l'.
Proof. by intros ->. Qed.

Lemma imap_snd {A B K : Type} (k : nat -> A -> K) (f : nat -> A -> B)
    (l : list A) :
  (imap (fun i x => (k i x, f i x)) l).*2 = imap f l.
Proof.
  revert k f. induction l as [|x l IH]; intros k f; [done|].
  cbn [imap]. rewrite fmap_cons. cbn [snd]. f_equal.
  apply (IH (fun i => k (S i)) (fun i => f (S i))).
Qed.

Lemma fmap_imap_ext {A B C : Type} (g : B -> C) (f : nat -> A -> B)
    (g' : A -> C) (l : list A) :
  (forall i x, g (f i x) = g' x) -> g <$> imap f l = g' <$> l.
Proof.
  revert f. induction l as [|x l IH]; intros f Hf; [done|].
  cbn [imap]. rewrite !fmap_cons, Hf. f_equal. apply IH.
  intros i y. apply Hf.
Qed.

(** The default of [a || b] applied twice is the default applied once. *)
Lemma js_or_idem (a b : value) : js_or (js_or a b) b = js_or a b.
Proof.
  unfold js_or. destruct (truthy a) eqn:Ha; [by rewrite Ha|].
  by destruct (truthy b).
Qed.

(** X27: on a store written by [saveAnniversaries] only, a save never fails
    on a taken identifier: it resolves, the invariant is kept, the session
    has one record for each entry of the list, and the records of the other
    sessions are as before. *)
Theorem saveAnniversaries_resolves (sessionId : jsstring) (anns : list obj)
    (clock : nat -> Z) (db : DB) :
  anns_wf db ->
  let db' := (saveAnniversaries sessionId anns clock db).1 in
  (saveAnniversaries sessionId anns clock db).2 = Resolved tt
  /\ anns_wf db'
  /\ length (index_only ann_sessionId (KStr sessionId) (anniversaries db'))
     = length anns
  /\ (forall k r, an_sessionId r <> sessionId ->
        (anniversaries db' !! k = Some r <-> anniversaries db !! k = Some r)).
Proof.
  intros Hwf. cbn zeta.
  split; [|split; [by apply anns_wf_saveAnniversaries|]];
    destruct (saveAnniversaries_store sessionId anns clock db Hwf)
      as (store' & -> & Hs & Hperm); [done|]. cbn. split.
  - rewrite Hperm. unfold ann_queue. by rewrite length_imap.
  - intros k r Hne. rewrite Hs. split; [|by right].
    intros [Hin|[? _]]; [|done].
    apply lookup_ann_queue_full in Hin as [? _]. done.
Qed.

Lemma saveAnniversaries_resolves_witness :
  (saveAnniversaries (js "s1")
     [{["name" := VStr (js "first"); "date" := VStr (js "2024-01-01")]}]
     (fun _ => 1) empty_db).2 = Resolved tt.
Proof.
  apply (saveAnniversaries_resolves (js "s1")
           [{["name" := VStr (js "first");
              "date" := VStr (js "2024-01-01")]}] (fun _ => 1)).
  apply anns_wf_empty.
Defined.

(** X28: saving and loading anniversaries.  After a save, whatever the
    session held before, [loadAnniversaries] returns one entry for each entry
    of the list, with its [name] and [date] and with its [type] or, when that
    is missing or falsy, ['anniversary']; when the dates are all valid the
    entries are given by non-decreasing date. *)
Theorem saveAnniversaries_load (parse : jsstring -> option Z)
    (sessionId : jsstring) (anns : list obj) (clock : nat -> Z) (db : DB) :
  anns_wf db ->
  let db' := (saveAnniversaries sessionId anns clock db).1 in
  loadAnniversaries parse sessionId db'
  ≡ₚ (fun ann =>
        {| av_name := get ann "name"; av_date := get ann "date";
           av_type := js_or (get ann "type") (VStr (js "anniversary")) |})
       <$> anns
  /\ (Forall (fun ann => is_Some (date_value parse (get ann "date"))) anns ->
      StronglySorted (fun a b => date_le parse (av_date a) (av_date b))
        (loadAnniversaries parse sessionId db')).
Proof.
  intros Hwf. cbn zeta.
  destruct (saveAnniversaries_store sessionId anns clock db Hwf)
    as (store' & -> & _ & Hperm).
  unfold loadAnniversaries, sortedAnniversaries.
  cbn [fst anniversaries with_anniversaries].
  assert (E : (index_only ann_sessionId (KStr sessionId) store').*2
              ≡ₚ imap (ann_item sessionId clock) anns).
  { rewrite Hperm. unfold ann_queue. apply eq_reflexive_perm, imap_snd. }
  split.
  - rewrite js_sort_perm, E. apply eq_reflexive_perm, fmap_imap_ext.
    intros i x. unfold ann_item. cbn. f_equal. apply js_or_idem.
  - intros Hvalid.
    assert (Hdates : Forall (fun x => is_Some (date_value parse (an_date x)))
                       (index_only ann_sessionId (KStr sessionId) store').*2).
    { rewrite E. apply Forall_forall.
      intros r (i & x & -> & Hx)%elem_of_lookup_imap. cbn.
      rewrite Forall_forall in Hvalid. apply Hvalid.
      by eapply list_elem_of_lookup_2. }
    pose proof (sorted_by_date parse an_date _ Hdates) as Hsorted.
    induction Hsorted as [|r l Hl IH Hr]; [constructor|].
    rewrite fmap_cons. constructor; [done|].
    by apply Forall_fmap.
Qed.

Lemma saveAnniversaries_load_witness :
  let db := (saveAnniversaries (js "s1")
               [{["name" := VStr (js "old"); "date" := VNum 5]}]
               (fun _ => 1) empty_db).1 in
  loadAnniversaries (fun _ => None) (js "s1")
    (saveAnniversaries (js "s1")
       [{["name" := VStr (js "b"); "date" := VNum 20;
          "type" := VStr (js "birthday")]};
        {["name" := VStr (js "a"); "date" := VNum 10]}]
       (fun _ => 2) db).1
  ≡ₚ [{| av_name := VStr (js "b"); av_date := VNum 20;
         av_type := VStr (js "birthday") |};
      {| av_name := VStr (js "a"); av_date := VNum 10;
         av_type := VStr (js "anniversary") |}].
Proof.
  cbn zeta.
  refine (proj1 (saveAnniversaries_load (fun _ => None) (js "s1")
            [{["name" := VStr (js "b"); "date" := VNum 20;
               "type" := VStr (js "birthday")]};
             {["name" := VStr (js "a"); "date" := VNum 10]}]
            (fun _ => 2)
            (saveAnniversaries (js "s1")
               [{["name" := VStr (js "old"); "date" := VNum 5]}]
               (fun _ => 1) empty_db).1 _)).
  apply anns_wf_saveAnniversaries, anns_wf_empty.
Defined.

Lemma deleteFromStore_subseteq {A : Type} (ix : A -> option Key) sessionId
    (m : gmap Key A) :
  deleteFromStore ix sessionId m ⊆ m.
Proof.
  apply map_subseteq_spec. intros k r H.
  by apply lookup_deleteFromStore in H as [H _].
Qed.

(** X29: [deleteSession] only removes: no count of [getStats] is larger
    afterwards. *)
Theorem deleteSession_shrinks (sessionId : jsstring) (db : DB) :
  let before := getStats db in
  let after := getStats (deleteSession sessionId db).1 in
  (st_sessions after <= st_sessions before)%nat
  /\ (st_messages after <= st_messages before)%nat
  /\ (st_resources after <= st_resources before)%nat
  /\ (st_settings after <= st_settings before)%nat
  /\ (st_customReplies after <= st_customReplies before)%nat
  /\ (st_anniversaries after <= st_anniversaries before)%nat.
Proof.
  cbn. repeat split; apply map_subseteq_size.
  - apply delete_subseteq.
  - apply deleteFromStore_subseteq.
  - apply map_subseteq_spec. intros k r H.
    by apply lookup_deleteResources in H as [H _].
  - apply delete_subseteq.
  - apply deleteFromStore_subseteq.
  - apply deleteFromStore_subseteq.
Qed.
